(** * eventforwarder: the websocket connection registry and fan-out broadcaster

    A shallow embedding of [src/eventforwarder/eventforwarder.go].

    The Go code is a [Service] holding a map of websocket connections (used as
    a set) and a mutex.  Every method is embedded as a function that takes the
    service state and returns the new state together with the {e trace} of
    effects it performed, in program order: lock operations, map accesses,
    calls on connections, log lines, goroutine spawns.  What the outside world
    decides (whether an upgrade or a write fails, what a read returns, in which
    order a [range] visits the keys of a map) is an explicit argument. *)

From Stdlib Require Import ZArith Lia.
From stdpp Require Import gmap strings list fin_maps pretty.

Local Open Scope Z_scope.

#[local] Set Warnings "-clear-no-such-hyp".

(** ** Constants (lines 18-23) *)

(** [time.Duration] counts nanoseconds. *)
Definition Second : Z := 1000000000.
Definition Minute : Z := 60 * Second.

Definition writeWait : Z := 10 * Second.
Definition pongWait : Z := 60 * Second.
Definition maxMessageSize : Z := 512.
Definition pingPeriod : Z := 30 * Second.

(** ** Data model *)

(** A [*websocket.Conn]: a pointer, known by its address; address 0 is [nil]. *)
Abbreviation Conn := nat (only parsing).
Definition nil_conn : Conn := 0%nat.

(** The fields of [events.Event] that the source reads or writes. *)
Record BasicRoomInfo := { BuildingID : string; RoomID : string }.
Record BasicDeviceInfo := { DeviceRoom : BasicRoomInfo; DeviceID : string }.

Record Event := {
  GeneratingSystem : string;
  Timestamp : Z;
  EventTags : list string;
  TargetDevice : BasicDeviceInfo;
  AffectedRoom : BasicRoomInfo;
  Key : string;
  Value : string
}.

(** Websocket message types of the library (only close and ping are sent). *)
Inductive MessageType := TextMessage | BinaryMessage | CloseMessage | PingMessage | PongMessage.

(** Errors that [ReadMessage] can return.  [CloseError code] is the library's
    [*CloseError]; 1001 is [CloseGoingAway]. *)
Inductive ReadError :=
| CloseError (code : Z)
| ErrReadLimit
| ErrTimeout
| ErrOther.

Definition CloseGoingAway : Z := 1001.

Definition IsCloseError (err : ReadError) (code : Z) : bool :=
  match err with
  | CloseError c => bool_decide (c = code)
  | _ => false
  end.

Inductive Level := LDebug | LInfo | LError.

(** The goroutines the service starts. *)
Inductive Task :=
| TaskHandleClose (c : Conn)
| TaskPingWebSocket (c : Conn)
| TaskReportWebSocketCount.

(** One observable effect.  Deadlines carry the offset added to [time.Now()];
    log lines carry the format string of the source. *)
Inductive Action :=
| Lock
| Unlock
| MapStore (c : Conn)
| MapDelete (c : Conn)
| MapLen (n : nat)
| SetWriteDeadline (c : Conn) (d : Z)
| WriteJSON (c : Conn) (e : Event)
| WriteMessage (c : Conn) (mt : MessageType)
| Close (c : Conn)
| SetReadLimit (c : Conn) (limit : Z)
| SetReadDeadline (c : Conn) (d : Z)
| SetPongHandler (c : Conn)
| ReadMessage (c : Conn)
| Log (lvl : Level) (format : string)
| Go (t : Task)
| NewTicker (d : Z)
| StopTicker
| SendEvent (e : Event)
| Sleep (d : Z).

Abbreviation Trace := (list Action) (only parsing).

(** [type Service struct] (lines 28-31).  The map is used as a set: the only
    value ever stored is [true].  [clientMux] is [true] while the mutex is
    held. *)
Record Service := {
  wsClients : gmap nat bool;
  clientMux : bool
}.

(** [New] (lines 35-41): an empty map, and the reporter goroutine is started. *)
Definition New : Service * Trace :=
  ({| wsClients := ∅; clientMux := false |}, [Go TaskReportWebSocketCount]).

(** ** HandleWebsocket (lines 45-59)

    [up] is what [upgrader.Upgrade] returned: the connection and the error.
    The error branch only logs; control then reaches the locked block whatever
    the error was.  The third component is the [error] the method returns to
    its caller: always [nil], here [None]. *)
Definition HandleWebsocket (up : Conn * option string) (s : Service)
    : Service * Trace * option string :=
  let '(c, err) := up in
  let logged :=
    match err with
    | Some _ => [Log LError "Error while attempting to upgrade connection to websocket: %v"]
    | None => []
    end in
  ({| wsClients := <[c := true]> (wsClients s); clientMux := false |},
   logged ++ [Lock; MapStore c; Go (TaskHandleClose c); Go (TaskPingWebSocket c); Unlock],
   None).

(** ** ForwardEvent (lines 62-81) *)

(** The filter of line 64. *)
Definition allowed (e : Event) : bool :=
  String.eqb (Key e) "login" || String.eqb (Key e) "card-read-error".

(** The body of the [range] loop (lines 68-75) for the entry [c]; [wfail c]
    tells whether [c.WriteJSON(e)] returns an error. *)
Definition forward_one (e : Event) (wfail : Conn → bool) (c : Conn)
    (m : gmap nat bool) : gmap nat bool * Trace :=
  if wfail c then
    (delete c m,
     [SetWriteDeadline c writeWait; WriteJSON c e;
      Log LError "Error while forwarding event to ws client: %s";
      MapDelete c; WriteMessage c CloseMessage; Close c])
  else
    (m, [SetWriteDeadline c writeWait; WriteJSON c e]).

(** [for c := range m { body }].  Go leaves the order of a map iteration
    unspecified, so the order is [order], an argument.  An entry that was
    removed before the iteration reached it is not produced; this is why the
    live map is looked up at every step. *)
Fixpoint range_map (body : Conn → gmap nat bool → gmap nat bool * Trace)
    (order : list Conn) (m : gmap nat bool) : gmap nat bool * Trace :=
  match order with
  | [] => (m, [])
  | c :: rest =>
      match m !! c with
      | None => range_map body rest m
      | Some _ =>
          let '(m1, t1) := body c m in
          let '(m2, t2) := range_map body rest m1 in
          (m2, t1 ++ t2)
      end
  end.

(** [order] is an order in which a [range] may visit the entries of [m]:
    every key once. *)
Definition range_order (m : gmap nat bool) (order : list Conn) : Prop :=
  order ≡ₚ elements (dom m).

Definition ForwardEvent (e : Event) (wfail : Conn → bool) (order : list Conn)
    (s : Service) : Service * Trace :=
  if allowed e then
    let '(m, t) := range_map (forward_one e wfail) order (wsClients s) in
    ({| wsClients := m; clientMux := false |}, [Lock] ++ t ++ [Unlock])
  else (s, []).

(** What one step of the loop does on the connection it visits (the trace of
    [forward_one] does not depend on the map). *)
Definition forward_trace (e : Event) (wfail : Conn → bool) (c : Conn) : Trace :=
  (forward_one e wfail c ∅).2.

(** A map without the entries of [order] whose write fails. *)
Definition prune (wfail : Conn → bool) (order : list Conn) (m : gmap nat bool)
    : gmap nat bool :=
  foldl (λ acc c, if wfail c then delete c acc else acc) m order.

(** ** pingWebSocket (lines 85-97) *)

(** How a statement hands control on: it falls through to what follows, or it
    executed a [break]. *)
Inductive Signal := Fallthrough | Break.

(** Whether a goroutine is still inside its loop or has returned. *)
Inductive Status := Running | Returned.

(** The body of [case <-ping.C:] (lines 91-94); [werr] tells whether the ping
    write returned an error, and then the body executes [break]. *)
Definition ping_case (c : Conn) (werr : bool) : Trace * Signal :=
  ([SetWriteDeadline c writeWait; WriteMessage c PingMessage],
   if werr then Break else Fallthrough).

(** The [select] statement (lines 89-95).  In Go an unlabelled [break]
    terminates the innermost [for], [switch] or [select] statement: the
    [break] of line 93 ends this [select], which then falls through. *)
Definition ping_select (c : Conn) (werr : bool) : Trace * Signal :=
  let '(t, _) := ping_case c werr in (t, Fallthrough).

(** The [for] loop (lines 88-96), one iteration per tick of the ticker;
    [ticks] gives for each the outcome of the ping write.  When the ticks run
    out the goroutine is blocked in the [select]. *)
Fixpoint ping_loop (c : Conn) (ticks : list bool) : Trace * Status :=
  match ticks with
  | [] => ([], Running)
  | werr :: rest =>
      match ping_select c werr with
      | (t, Break) => (t, Returned)
      | (t, Fallthrough) =>
          let '(t', st) := ping_loop c rest in (t ++ t', st)
      end
  end.

(** The deferred [ping.Stop()] runs when the function returns. *)
Definition pingWebSocket (c : Conn) (ticks : list bool) : Trace * Status :=
  let '(t, st) := ping_loop c ticks in
  (NewTicker pingPeriod :: t ++ match st with Returned => [StopTicker] | Running => [] end,
   st).

(** ** handleClose (lines 100-119) *)

(** What arrives on a connection while its reader is blocked in
    [ReadMessage]: a data frame, a pong, or a failure of the read (peer
    closed, deadline passed, ...). *)
Inductive Inbound :=
| Frame (payload : string)
| Pong
| Fault (err : ReadError).

(** The websocket library is an external dependency; this is its documented
    contract for the read limit: a message longer than the limit set by
    [SetReadLimit] is not delivered, [ReadMessage] returns [ErrReadLimit].
    A limit of 0, the library's default, means no limit. *)
Definition read_frame (limit : Z) (payload : string) : string + ReadError :=
  if (0 <? limit) && (limit <? Z.of_nat (String.length payload))
  then inr ErrReadLimit
  else inl payload.

(** Lines 111-116: what the loop logs before it breaks on [err]. *)
Definition read_error_log (err : ReadError) : Trace :=
  if IsCloseError err CloseGoingAway then [Log LInfo "error: %v"] else [].

(** The [for] loop (lines 109-118).  [limit] is the read limit in force.  A
    [ReadMessage] action is recorded when the call returns.  A pong is
    consumed inside [ReadMessage] by the handler of line 108, which pushes the
    read deadline; the call keeps waiting.  When the input runs out the
    goroutine is blocked in [ReadMessage]. *)
Fixpoint read_loop (c : Conn) (limit : Z) (ins : list Inbound) : Trace * Status :=
  match ins with
  | [] => ([], Running)
  | Pong :: rest =>
      let '(t, st) := read_loop c limit rest in
      (SetReadDeadline c pongWait :: t, st)
  | Frame p :: rest =>
      match read_frame limit p with
      | inl _ =>
          let '(t, st) := read_loop c limit rest in
          (ReadMessage c :: Log LInfo "Received message from socket: %s" :: t, st)
      | inr err => (ReadMessage c :: read_error_log err, Returned)
      end
  | Fault err :: _ => (ReadMessage c :: read_error_log err, Returned)
  end.

(** The deferred function (lines 101-105): it takes no lock. *)
Definition handleClose_deferred (c : Conn) (s : Service) : Service * Trace :=
  ({| wsClients := delete c (wsClients s); clientMux := clientMux s |},
   [MapDelete c; WriteMessage c CloseMessage; Close c]).

(** [s] is the service as it is when the reader leaves its loop: the function
    touches the service only in the deferred function. *)
Definition handleClose (c : Conn) (ins : list Inbound) (s : Service)
    : Service * Trace * Status :=
  let setup := [SetReadLimit c maxMessageSize; SetReadDeadline c pongWait; SetPongHandler c] in
  match read_loop c maxMessageSize ins with
  | (t, Running) => (s, setup ++ t, Running)
  | (t, Returned) =>
      let '(s', d) := handleClose_deferred c s in
      (s', setup ++ t ++ d, Returned)
  end.

(** ** reportWebSocketCount (lines 122-146) *)

(** What one iteration of the reporter's loop finds: the time, the service
    as it is then (both reads of its size see this one), and whether the
    emission of the event is going to fail.
    [SendEvent] returns nothing, so the loop has no way to see the latter. *)
Record Interval := {
  at_time : Z;
  at_service : Service;
  send_fails : bool
}.

Section Reporter.
(** Of the [events] library: a constant and the two functions that split a
    system id into device and room information. *)
Variable DetailState : string.
Variable GenerateBasicDeviceInfo : string → BasicDeviceInfo.
Variable GenerateBasicRoomInfo : string → BasicRoomInfo.

(** One iteration of the loop (lines 131-144).  [messenger] is the pointer
    [BuildMessenger] returned, [None] for [nil]; [i] is what the iteration
    finds.  [len(s.wsClients)] is read twice, with no lock. *)
Definition count_event (id : string) (i : Interval) : Event :=
  let deviceInfo := GenerateBasicDeviceInfo id in
  let roomInfo := GenerateBasicRoomInfo (RoomID (DeviceRoom deviceInfo)) in
  {| GeneratingSystem := id;
     Timestamp := at_time i;
     EventTags := [DetailState];
     TargetDevice := deviceInfo;
     AffectedRoom := roomInfo;
     Key := "websocket-count";
     Value := pretty (size (wsClients (at_service i))) |}.

Definition report_once (id : string) (messenger : option nat) (i : Interval) : Trace :=
  [MapLen (size (wsClients (at_service i)));
   Log LDebug "sending websocket count of : %d";
   MapLen (size (wsClients (at_service i)))]
  ++ match messenger with
     | Some _ => [SendEvent (count_event id i)]
     | None => []
     end
  ++ [Sleep Minute].

(** The [for] loop (lines 130-145): it has no [break] and no [return]. *)
Fixpoint report_loop (id : string) (messenger : option nat)
    (ticks : list Interval) : Trace :=
  match ticks with
  | [] => []
  | i :: rest => report_once id messenger i ++ report_loop id messenger rest
  end.

(** The reporter from the point where [localsystem.MustSystemID()] has
    returned [id].  [built] is what [BuildMessenger] returned; [ticks] has
    one entry per iteration that has run so far. *)
Definition reportWebSocketCount (id : string) (built : option nat * option string)
    (ticks : list Interval) : Trace * Status :=
  let '(messenger, err) := built in
  let logged :=
    match err with
    | Some _ => [Log LError "unable to build websocket count messenger: %s"]
    | None => []
    end in
  (logged ++ report_loop id messenger ticks, Running).
End Reporter.

(** ** Observations on traces *)

(** A write on a connection: an event or a control frame. *)
Definition is_write (a : Action) : bool :=
  match a with
  | WriteJSON _ _ | WriteMessage _ _ => true
  | _ => false
  end.

Definition writes (t : Trace) : Trace := filter (λ a, is_write a = true) t.

(** The writes on the connection [c]. *)
Definition is_write_to (c : Conn) (a : Action) : bool :=
  match a with
  | WriteJSON c' _ | WriteMessage c' _ => bool_decide (c' = c)
  | _ => false
  end.

Definition writes_to (c : Conn) (t : Trace) : Trace :=
  filter (λ a, is_write_to c a = true) t.

(** The connections an event was written to, in order. *)
Fixpoint json_targets (t : Trace) : list Conn :=
  match t with
  | [] => []
  | WriteJSON c _ :: t' => c :: json_targets t'
  | _ :: t' => json_targets t'
  end.

(** The connections that were closed, in order. *)
Fixpoint closed_conns (t : Trace) : list Conn :=
  match t with
  | [] => []
  | Close c :: t' => c :: closed_conns t'
  | _ :: t' => closed_conns t'
  end.

(** The connections deleted from the map, in order. *)
Fixpoint deleted_conns (t : Trace) : list Conn :=
  match t with
  | [] => []
  | MapDelete c :: t' => c :: deleted_conns t'
  | _ :: t' => deleted_conns t'
  end.

(** How often [c] was closed. *)
Definition close_count (c : Conn) (t : Trace) : nat :=
  length (filter (λ x, x = c) (closed_conns t)).

(** The ping frames written. *)
Fixpoint pings (t : Trace) : nat :=
  match t with
  | [] => 0%nat
  | WriteMessage _ PingMessage :: t' => S (pings t')
  | _ :: t' => pings t'
  end.

(** The pauses between iterations of the reporter. *)
Fixpoint sleeps (t : Trace) : list Z :=
  match t with
  | [] => []
  | Sleep d :: t' => d :: sleeps t'
  | _ :: t' => sleeps t'
  end.

(** The sizes read off the map, in order. *)
Fixpoint map_lens (t : Trace) : list nat :=
  match t with
  | [] => []
  | MapLen n :: t' => n :: map_lens t'
  | _ :: t' => map_lens t'
  end.

(** The lines logged at error level, in order. *)
Fixpoint error_logs (t : Trace) : list string :=
  match t with
  | [] => []
  | Log LError f :: t' => f :: error_logs t'
  | _ :: t' => error_logs t'
  end.

(** The events sent upstream, in order. *)
Fixpoint sent_events (t : Trace) : list Event :=
  match t with
  | [] => []
  | SendEvent e :: t' => e :: sent_events t'
  | _ :: t' => sent_events t'
  end.

Definition is_map_access (a : Action) : bool :=
  match a with
  | MapStore _ | MapDelete _ | MapLen _ => true
  | _ => false
  end.

(** The lock discipline: walking the trace of one operation, with [held]
    telling whether the operation holds the mutex, every access to the map
    happens while it is held, the mutex is not taken twice nor released
    unheld, and it is released at the end. *)
Fixpoint guarded (held : bool) (t : Trace) : bool :=
  match t with
  | [] => negb held
  | Lock :: t' => negb held && guarded true t'
  | Unlock :: t' => held && guarded false t'
  | a :: t' => (if is_map_access a then held else true) && guarded held t'
  end.

(** ** Sample inputs *)

Definition no_room : BasicRoomInfo := {| BuildingID := ""; RoomID := "" |}.
Definition no_device : BasicDeviceInfo := {| DeviceRoom := no_room; DeviceID := "" |}.

(** An event with the given key and value. *)
Definition event_of (key value : string) : Event :=
  {| GeneratingSystem := ""; Timestamp := 0; EventTags := [];
     TargetDevice := no_device; AffectedRoom := no_room;
     Key := key; Value := value |}.

Definition login_event : Event := event_of "login" "userX".

(** A service with the given connections registered and the mutex free. *)
Definition service_of (conns : list Conn) : Service :=
  {| wsClients := list_to_map ((λ c, (c, true)) <$> conns); clientMux := false |}.

(** ** The spec's wording of the filter *)

(** The allow-set of the filter policy, as the spec names it. *)
Definition allow_set : list string := ["login"; "card-read-error"]%string.

(** ** The spec's wording of deferred removal *)

(** "Collect removal candidates during the pass and apply them after": the
    trace of a pass splits into the iteration, in which nothing is deleted
    from the map, and the removals, in which no event is written. *)
Definition removal_after_pass (t : Trace) : Prop :=
  ∃ pass drop : Trace,
    t = pass ++ drop ∧ deleted_conns pass = [] ∧ json_targets drop = [].

(** An inbound item that does not make [ReadMessage] fail under the read
    limit of the source: a pong, or a frame of at most [maxMessageSize]
    bytes. *)
Definition fits (i : Inbound) : Prop :=
  match i with
  | Frame p => (Z.of_nat (String.length p) ≤ maxMessageSize)%Z
  | Pong => True
  | Fault _ => False
  end.

(** Whether an action may occur, as far as the lock discipline goes, in a
    stretch of trace that neither takes nor releases the mutex. *)
Definition step_ok (held : bool) (a : Action) : bool :=
  match a with
  | Lock | Unlock => false
  | _ => if is_map_access a then held else true
  end.

(** ** Further observations on traces *)



(** The read deadlines set, in order. *)
Fixpoint read_deadlines (t : Trace) : list (Conn * Z) :=
  match t with
  | [] => []
  | SetReadDeadline c d :: t' => (c, d) :: read_deadlines t'
  | _ :: t' => read_deadlines t'
  end.

(** The lines logged at info level, in order. *)
Fixpoint info_logs (t : Trace) : list string :=
  match t with
  | [] => []
  | Log LInfo f :: t' => f :: info_logs t'
  | _ :: t' => info_logs t'
  end.

(** The operations on the mutex, in order. *)
Fixpoint lock_ops (t : Trace) : Trace :=
  match t with
  | [] => []
  | Lock :: t' => Lock :: lock_ops t'
  | Unlock :: t' => Unlock :: lock_ops t'
  | _ :: t' => lock_ops t'
  end.

(** The goroutines started, in order. *)
Fixpoint spawned (t : Trace) : list Task :=
  match t with
  | [] => []
  | Go k :: t' => k :: spawned t'
  | _ :: t' => spawned t'
  end.

(** The data frames and the pongs among what arrives. *)
Fixpoint frames (ins : list Inbound) : nat :=
  match ins with
  | [] => 0%nat
  | Frame _ :: rest => S (frames rest)
  | _ :: rest => frames rest
  end.

Fixpoint pongs (ins : list Inbound) : nat :=
  match ins with
  | [] => 0%nat
  | Pong :: rest => S (pongs rest)
  | _ :: rest => pongs rest
  end.

(** ** Sequences of calls on one service *)

(** A call that changes the service: an admission, a broadcast, or the
    return of a connection's reader (with everything it read before). *)
Inductive Call :=
| CallHandleWebsocket (up : Conn * option string)
| CallForwardEvent (e : Event) (wfail : Conn → bool) (order : list Conn)
| CallHandleClose (c : Conn) (ins : list Inbound).

Definition call (k : Call) (s : Service) : Service * Trace :=
  match k with
  | CallHandleWebsocket up => (HandleWebsocket up s).1
  | CallForwardEvent e wfail order => ForwardEvent e wfail order s
  | CallHandleClose c ins => (handleClose c ins s).1
  end.

(** The calls one after the other, each on the service the previous one
    left. *)
Fixpoint run (calls : list Call) (s : Service) : Service * Trace :=
  match calls with
  | [] => (s, [])
  | k :: rest =>
      let '(s1, t1) := call k s in
      let '(s2, t2) := run rest s1 in
      (s2, t1 ++ t2)
  end.

(** * Proofs *)

Local Open Scope nat_scope.

(** Closes [range_order m order] on concrete data. *)
Ltac range_order_by_computation :=
  unfold range_order; apply (bool_decide_unpack _); vm_compute; exact I.

(** ** The filter *)

Lemma allowed_spec (e : Event) : allowed e = true ↔ Key e ∈ allow_set.
Proof.
  unfold allowed, allow_set.
  rewrite orb_true_iff, !String.eqb_eq, !elem_of_cons, elem_of_nil.
  tauto.
Qed.

Lemma not_allowed_spec (e : Event) : allowed e = false ↔ Key e ∉ allow_set.
Proof.
  rewrite <- allowed_spec. destruct (allowed e); split; congruence.
Qed.

(** ** The broadcast loop *)

Section Broadcast.
Variable e : Event.
Variable wfail : Conn → bool.

Local Abbreviation forward_trace := (forward_trace e wfail).
Local Abbreviation prune := (prune wfail).

Lemma forward_one_eq (c : Conn) (m : gmap nat bool) :
  forward_one e wfail c m = (if wfail c then delete c m else m, forward_trace c).
Proof. unfold forward_trace, forward_one. by destruct (wfail c). Qed.

(** The loop in closed form: no entry is skipped, because a step deletes
    only the entry it is visiting. *)
Lemma range_forward (order : list Conn) (m : gmap nat bool) :
  NoDup order →
  (∀ c, c ∈ order → is_Some (m !! c)) →
  range_map (forward_one e wfail) order m = (prune order m, order ≫= forward_trace).
Proof.
  revert m. induction order as [|c rest IH]; intros m Hnd Hin; [done|].
  apply NoDup_cons in Hnd as [Hc Hnd].
  destruct (Hin c) as [b Hb]; [left|].
  simpl. rewrite Hb, forward_one_eq.
  rewrite IH; [done|done|].
  intros c' Hc'. destruct (wfail c).
  - rewrite lookup_delete_ne; [apply Hin; by right|]. intros ->. done.
  - apply Hin. by right.
Qed.

Lemma prune_lookup (order : list Conn) (m : gmap nat bool) (k : Conn) :
  prune order m !! k = if bool_decide (k ∈ order) && wfail k then None else m !! k.
Proof.
  revert m. induction order as [|c rest IH]; intros m; [done|].
  unfold prune in *. simpl. rewrite IH.
  destruct (decide (k = c)) as [->|Hne].
  - rewrite (bool_decide_eq_true_2 (c ∈ c :: rest)); [|left].
    destruct (wfail c) eqn:Hw; simpl.
    + rewrite lookup_delete_eq. by destruct (bool_decide _).
    + by rewrite andb_false_r.
  - assert (bool_decide (k ∈ c :: rest) = bool_decide (k ∈ rest)) as ->.
    { apply bool_decide_ext. rewrite elem_of_cons. naive_solver. }
    destruct (bool_decide (k ∈ rest) && wfail k); [done|].
    destruct (wfail c); [by rewrite lookup_delete_ne|done].
Qed.

Lemma range_order_NoDup (m : gmap nat bool) (order : list Conn) :
  range_order m order → NoDup order.
Proof. intros H. unfold range_order in H. rewrite H. apply NoDup_elements. Qed.

Lemma range_order_elem (m : gmap nat bool) (order : list Conn) (c : Conn) :
  range_order m order → c ∈ order ↔ is_Some (m !! c).
Proof.
  unfold range_order. intros ->. by rewrite elem_of_elements, elem_of_dom.
Qed.

Lemma range_order_nil (m : gmap nat bool) (order : list Conn) :
  range_order m order → order = [] ↔ m = ∅.
Proof.
  intros H. split.
  - intros ->. apply map_eq. intros c. rewrite lookup_empty.
    apply eq_None_not_Some. rewrite <- (range_order_elem _ _ _ H). apply not_elem_of_nil.
  - intros ->. unfold range_order in H.
    rewrite dom_empty_L, elements_empty in H. by apply Permutation_nil_r.
Qed.

(** [ForwardEvent] on an event that passes the filter, in closed form. *)
Lemma ForwardEvent_allowed (order : list Conn) (s : Service) :
  allowed e = true →
  range_order (wsClients s) order →
  ForwardEvent e wfail order s =
    ({| wsClients := prune order (wsClients s); clientMux := false |},
     [Lock] ++ (order ≫= forward_trace) ++ [Unlock]).
Proof.
  intros Ha Ho. unfold ForwardEvent. rewrite Ha.
  rewrite range_forward; [done|by eapply range_order_NoDup|].
  intros c. by rewrite (range_order_elem _ _ _ Ho).
Qed.

Lemma ForwardEvent_dropped (order : list Conn) (s : Service) :
  allowed e = false → ForwardEvent e wfail order s = (s, []).
Proof. intros Ha. unfold ForwardEvent. by rewrite Ha. Qed.

(** The registry after a pass: the connections whose write failed are
    gone, the others are untouched. *)
Lemma prune_range_order (order : list Conn) (m : gmap nat bool) (k : Conn) :
  range_order m order →
  prune order m !! k = if wfail k then None else m !! k.
Proof.
  intros Ho. rewrite prune_lookup.
  destruct (wfail k); [|by rewrite andb_false_r].
  rewrite andb_true_r. case_bool_decide as Hk; [done|].
  rewrite (range_order_elem _ _ _ Ho) in Hk. by apply eq_None_not_Some in Hk.
Qed.

(** Observations on the trace of the loop. *)
Lemma json_targets_app (t1 t2 : Trace) :
  json_targets (t1 ++ t2) = json_targets t1 ++ json_targets t2.
Proof.
  induction t1 as [|a t1 IH]; [done|]. destruct a; simpl; by rewrite ?IH.
Qed.

Lemma closed_conns_app (t1 t2 : Trace) :
  closed_conns (t1 ++ t2) = closed_conns t1 ++ closed_conns t2.
Proof.
  induction t1 as [|a t1 IH]; [done|]. destruct a; simpl; by rewrite ?IH.
Qed.

Lemma deleted_conns_app (t1 t2 : Trace) :
  deleted_conns (t1 ++ t2) = deleted_conns t1 ++ deleted_conns t2.
Proof.
  induction t1 as [|a t1 IH]; [done|]. destruct a; simpl; by rewrite ?IH.
Qed.

Lemma writes_app (t1 t2 : Trace) : writes (t1 ++ t2) = writes t1 ++ writes t2.
Proof. apply filter_app. Qed.

Lemma writes_to_app (c : Conn) (t1 t2 : Trace) :
  writes_to c (t1 ++ t2) = writes_to c t1 ++ writes_to c t2.
Proof. apply filter_app. Qed.

Lemma writes_locked (t : Trace) : writes ([Lock] ++ t ++ [Unlock]) = writes t.
Proof.
  rewrite !writes_app.
  change (writes [Lock]) with (@nil Action). change (writes [Unlock]) with (@nil Action).
  by rewrite app_nil_r.
Qed.

Lemma writes_to_locked (c : Conn) (t : Trace) :
  writes_to c ([Lock] ++ t ++ [Unlock]) = writes_to c t.
Proof.
  rewrite !writes_to_app.
  change (writes_to c [Lock]) with (@nil Action).
  change (writes_to c [Unlock]) with (@nil Action).
  by rewrite app_nil_r.
Qed.

Lemma json_targets_loop (order : list Conn) :
  json_targets (order ≫= forward_trace) = order.
Proof.
  induction order as [|c rest IH]; [done|].
  rewrite bind_cons, json_targets_app, IH.
  unfold forward_trace, forward_one. by destruct (wfail c).
Qed.

Lemma closed_conns_loop (order : list Conn) :
  closed_conns (order ≫= forward_trace) = filter (λ c, wfail c = true) order.
Proof.
  induction order as [|c rest IH]; [done|].
  rewrite bind_cons, closed_conns_app, IH, filter_cons.
  unfold forward_trace, forward_one. destruct (wfail c); by case_decide.
Qed.

Lemma deleted_conns_loop (order : list Conn) :
  deleted_conns (order ≫= forward_trace) = filter (λ c, wfail c = true) order.
Proof.
  induction order as [|c rest IH]; [done|].
  rewrite bind_cons, deleted_conns_app, IH, filter_cons.
  unfold forward_trace, forward_one. destruct (wfail c); by case_decide.
Qed.

Lemma writes_loop_nil (order : list Conn) :
  writes (order ≫= forward_trace) = [] ↔ order = [].
Proof.
  split; [|by intros ->].
  destruct order as [|c rest]; [done|].
  rewrite bind_cons, writes_app. unfold forward_trace, forward_one.
  destruct (wfail c); discriminate.
Qed.

Lemma writes_to_loop (c : Conn) (order : list Conn) :
  writes_to c (order ≫= forward_trace) = [] ↔ c ∉ order.
Proof.
  induction order as [|c' rest IH]; [split; [intros _; apply not_elem_of_nil|done]|].
  rewrite bind_cons, writes_to_app, not_elem_of_cons.
  destruct (decide (c' = c)) as [->|Hne].
  - split; [|naive_solver].
    unfold forward_trace, forward_one, writes_to.
    destruct (wfail c); simpl; rewrite !filter_cons; simpl;
      rewrite bool_decide_eq_true_2 by done; simpl; discriminate.
  - assert (writes_to c (forward_trace c') = []) as ->.
    { unfold forward_trace, forward_one, writes_to.
      destruct (wfail c'); simpl; rewrite !filter_cons; simpl;
        rewrite ?bool_decide_eq_false_2 by done; done. }
    simpl. rewrite IH. naive_solver.
Qed.
End Broadcast.

(** ** C1: the filter *)

(** C1, as stated, fails: with no connection registered, an event whose key
    is in the allow-set causes zero writes too. *)
Lemma C1_counterexample :
  ¬ (writes (ForwardEvent login_event (λ _, false) [] (service_of [])).2 = []
     ↔ Key login_event ∉ allow_set).
Proof.
  intros [Hzero _]. apply Hzero; [reflexivity|].
  apply allowed_spec. reflexivity.
Qed.

(** C1, amended: [ForwardEvent] performs zero writes iff the key is not in
    the allow-set or no connection is registered; a registered connection
    receives zero writes iff the key is not in the allow-set; and on a key
    outside the allow-set the call returns at once, with the service
    unchanged and no effect at all. *)
Theorem C1_filter_correctness (e : Event) (wfail : Conn → bool)
    (order : list Conn) (s : Service) :
  range_order (wsClients s) order →
  (writes (ForwardEvent e wfail order s).2 = []
     ↔ Key e ∉ allow_set ∨ wsClients s = ∅)
  ∧ (∀ c, is_Some (wsClients s !! c) →
       writes_to c (ForwardEvent e wfail order s).2 = [] ↔ Key e ∉ allow_set)
  ∧ (Key e ∉ allow_set → ForwardEvent e wfail order s = (s, [])).
Proof.
  intros Ho. destruct (allowed e) eqn:Ha.
  - assert (Hin : ¬ (Key e ∉ allow_set)).
    { intros Hn. apply not_allowed_spec in Hn. congruence. }
    rewrite ForwardEvent_allowed by done.
    unfold snd. rewrite writes_locked, writes_loop_nil, (range_order_nil _ _ Ho).
    split; [tauto|]. split; [|tauto].
    intros c Hc.
    rewrite writes_to_locked, writes_to_loop, (range_order_elem _ _ _ Ho). tauto.
  - assert (Hout : Key e ∉ allow_set) by by apply not_allowed_spec.
    rewrite ForwardEvent_dropped by done. simpl.
    split; [|split]; [tauto|tauto|done].
Qed.

Lemma C1_filter_correctness_witness :
  range_order (wsClients (service_of [1%nat])) [1%nat]
  ∧ (writes (ForwardEvent login_event (λ _, false) [1%nat] (service_of [1%nat])).2 = []
       ↔ Key login_event ∉ allow_set ∨ wsClients (service_of [1%nat]) = ∅).
Proof.
  split; [range_order_by_computation|].
  apply (C1_filter_correctness login_event (λ _, false) [1%nat] (service_of [1%nat])).
  range_order_by_computation.
Defined.

(** ** C2: a failed write does not abort the pass *)

(** C2: in a broadcast pass every registered connection gets its write
    attempt, whatever happened to the connections visited before it, and
    exactly the connections whose write failed are deleted and closed.  In
    particular over {A, B, C} with only A failing: A, B and C are each written
    to once, A is deleted and closed, B and C stay registered. *)
Theorem C2_failure_isolated (e : Event) (wfail : Conn → bool)
    (order : list Conn) (s : Service) :
  allowed e = true →
  range_order (wsClients s) order →
  let '(s', t) := ForwardEvent e wfail order s in
  json_targets t = order
  ∧ (∀ c, wsClients s' !! c = if wfail c then None else wsClients s !! c)
  ∧ closed_conns t = filter (λ c, wfail c = true) order
  ∧ ∀ A B C : Conn,
      A ≠ B → A ≠ C → B ≠ C →
      dom (wsClients s) = {[A; B; C]} →
      wfail A = true → wfail B = false → wfail C = false →
      json_targets t ≡ₚ [A; B; C]
      ∧ closed_conns t = [A]
      ∧ deleted_conns t = [A]
      ∧ wsClients s' = delete A (wsClients s)
      ∧ dom (wsClients s') = {[B; C]}.
Proof.
  intros Ha Ho. rewrite ForwardEvent_allowed by done.
  change (Lock :: ?t) with ([Lock] ++ t).
  rewrite !json_targets_app, !closed_conns_app, !deleted_conns_app.
  rewrite json_targets_loop, closed_conns_loop, deleted_conns_loop.
  simpl. rewrite !app_nil_r.
  assert (Hlook : ∀ c, prune wfail order (wsClients s) !! c
                       = if wfail c then None else wsClients s !! c).
  { intros c. by apply prune_range_order. }
  split; [done|]. split; [done|]. split; [done|].
  intros A B C HAB HAC HBC Hdom HA HB HC.
  assert (Hperm : order ≡ₚ [A; B; C]).
  { apply NoDup_Permutation.
    - by eapply range_order_NoDup.
    - repeat constructor; set_solver.
    - intros c. rewrite (range_order_elem _ _ _ Ho), <- elem_of_dom, Hdom. set_solver. }
  assert (Hfail : filter (λ c, wfail c = true) order = [A]).
  { apply Permutation_singleton_r. rewrite Hperm.
    rewrite !filter_cons, filter_nil. repeat case_decide; try congruence; done. }
  assert (Hmap : prune wfail order (wsClients s) = delete A (wsClients s)).
  { apply map_eq. intros c. rewrite Hlook.
    destruct (decide (c = A)) as [->|Hne].
    - by rewrite HA, lookup_delete_eq.
    - rewrite lookup_delete_ne by done.
      destruct (wfail c) eqn:Hw; [|done].
      destruct (wsClients s !! c) eqn:Hc; [|done].
      assert (c ∈ dom (wsClients s)) as Hin by (apply elem_of_dom; eauto).
      rewrite Hdom, !elem_of_union, !elem_of_singleton in Hin.
      destruct Hin as [[->| ->]| ->]; congruence. }
  split; [done|]. split; [done|]. split; [done|]. split; [done|].
  rewrite Hmap, dom_delete_L, Hdom. set_solver.
Qed.

Lemma C2_failure_isolated_witness :
  let wfail := λ c : nat, bool_decide (c = 1%nat) in
  let '(s', t) := ForwardEvent login_event wfail [3; 1; 2]%nat (service_of [1; 2; 3]%nat) in
  json_targets t = [3; 1; 2]%nat
  ∧ closed_conns t = [1%nat]
  ∧ dom (wsClients s') = {[2%nat; 3%nat]}.
Proof.
  intros wfail.
  pose proof (C2_failure_isolated login_event wfail [3; 1; 2]%nat
                (service_of [1; 2; 3]%nat)) as H.
  destruct (ForwardEvent login_event wfail [3; 1; 2]%nat (service_of [1; 2; 3]%nat))
    as [s' t].
  destruct H as (Ht & _ & _ & Habc); [reflexivity|range_order_by_computation|].
  destruct (Habc 1%nat 2%nat 3%nat) as (_ & Hc & _ & _ & Hd);
    [lia|lia|lia|by vm_compute|reflexivity|reflexivity|reflexivity|].
  done.
Defined.

(** ** C3: a failed upgrade *)

(** C3 fails on the code: after logging the upgrade error, [HandleWebsocket]
    goes on, stores the nil connection in the registry, starts both
    goroutines on it and returns no error. *)
Theorem C3_failed_upgrade_registers_nil (err : string) (s : Service) :
  HandleWebsocket (nil_conn, Some err) s =
    ({| wsClients := <[nil_conn := true]> (wsClients s); clientMux := false |},
     [Log LError "Error while attempting to upgrade connection to websocket: %v";
      Lock; MapStore nil_conn;
      Go (TaskHandleClose nil_conn); Go (TaskPingWebSocket nil_conn); Unlock],
     None)
  ∧ wsClients (HandleWebsocket (nil_conn, Some err) s).1.1 !! nil_conn = Some true
  ∧ wsClients (HandleWebsocket (nil_conn, Some err) s).1.1 ≠ ∅.
Proof.
  split; [reflexivity|]. simpl. split; [apply lookup_insert_eq|].
  apply insert_non_empty.
Qed.

(** ** C4: when a failed connection leaves the registry *)

(** C4, as stated, fails: with connections 1 and 2 registered and the write
    to 1 failing, the loop step for 1 changes the map, and in the trace the
    delete of 1 comes before the write to 2, so the trace has no split into
    an iteration without deletes followed by removals. *)
Lemma C4_counterexample :
  let wfail := λ c : nat, bool_decide (c = 1) in
  (forward_one login_event wfail 1 (wsClients (service_of [1; 2]))).1
    ≠ wsClients (service_of [1; 2])
  ∧ ¬ removal_after_pass
        (ForwardEvent login_event wfail [1; 2] (service_of [1; 2])).2.
Proof.
  intros wfail. split.
  - intros Heq. apply (f_equal (λ m : gmap nat bool, m !! 1)) in Heq.
    vm_compute in Heq. discriminate.
  - intros (pass & drop & Heq & Hp & Hd).
    remember (ForwardEvent login_event wfail [1; 2] (service_of [1; 2])).2 as t eqn:Ht.
    vm_compute in Ht. subst t.
    repeat (destruct pass as [|? pass]; simplify_eq/=).
Qed.

(** C4, amended: a connection whose write fails is deleted from the registry
    during the iteration, by the loop step that visits it, right after the
    failed write.  A step deletes the entry it is visiting and no other, so no
    registered connection is skipped, and when the pass is over the registry
    is the initial one without the connections whose write failed. *)
Theorem C4_removal_during_pass (e : Event) (wfail : Conn → bool)
    (order : list Conn) (s : Service) :
  allowed e = true →
  range_order (wsClients s) order →
  let '(s', t) := ForwardEvent e wfail order s in
  (∀ c m, forward_one e wfail c m =
     if wfail c then
       (delete c m,
        [SetWriteDeadline c writeWait; WriteJSON c e;
         Log LError "Error while forwarding event to ws client: %s";
         MapDelete c; WriteMessage c CloseMessage; Close c])
     else (m, [SetWriteDeadline c writeWait; WriteJSON c e]))
  ∧ t = [Lock] ++ (order ≫= λ c, (forward_one e wfail c ∅).2) ++ [Unlock]
  ∧ json_targets t = order
  ∧ deleted_conns t = filter (λ c, wfail c = true) order
  ∧ ∀ c, wsClients s' !! c = if wfail c then None else wsClients s !! c.
Proof.
  intros Ha Ho. rewrite ForwardEvent_allowed by done.
  split; [done|]. split; [done|].
  change (Lock :: ?t) with ([Lock] ++ t).
  rewrite !json_targets_app, !deleted_conns_app, json_targets_loop, deleted_conns_loop.
  simpl. rewrite !app_nil_r.
  split; [done|]. split; [done|].
  intros c. by apply prune_range_order.
Qed.

Lemma C4_removal_during_pass_witness :
  let wfail := λ c : nat, bool_decide (c = 1) in
  let '(s', t) := ForwardEvent login_event wfail [1; 2] (service_of [1; 2]) in
  json_targets t = [1; 2] ∧ deleted_conns t = [1].
Proof.
  intros wfail.
  pose proof (C4_removal_during_pass login_event wfail [1; 2] (service_of [1; 2])) as H.
  destruct (ForwardEvent login_event wfail [1; 2] (service_of [1; 2])) as [s' t].
  destruct H as (_ & _ & Hj & Hd & _); [reflexivity|range_order_by_computation|].
  split; [exact Hj|exact Hd].
Defined.

(** ** The liveness reader *)

(** The reader's loop touches neither the mutex nor the map, and closes
    nothing: all of that is left to the deferred function. *)
Lemma read_loop_quiet (c : Conn) (limit : Z) (ins : list Inbound) (h : bool) :
  forallb (step_ok h) (read_loop c limit ins).1 = true
  ∧ closed_conns (read_loop c limit ins).1 = []
  ∧ deleted_conns (read_loop c limit ins).1 = [].
Proof.
  induction ins as [|i rest IH]; [done|].
  destruct i as [p| |err]; simpl.
  - destruct (read_frame limit p) as [msg|err'].
    + destruct (read_loop c limit rest) as [t st]. simpl in *. done.
    + simpl. unfold read_error_log. by destruct (IsCloseError _ _).
  - destruct (read_loop c limit rest) as [t st]. simpl in *. done.
  - unfold read_error_log. by destruct (IsCloseError _ _).
Qed.

(** [handleClose] in closed form. *)
Lemma handleClose_eq (c : Conn) (ins : list Inbound) (s : Service) :
  handleClose c ins s =
    match (read_loop c maxMessageSize ins).2 with
    | Running =>
        (s,
         [SetReadLimit c maxMessageSize; SetReadDeadline c pongWait; SetPongHandler c]
         ++ (read_loop c maxMessageSize ins).1,
         Running)
    | Returned =>
        ({| wsClients := delete c (wsClients s); clientMux := clientMux s |},
         [SetReadLimit c maxMessageSize; SetReadDeadline c pongWait; SetPongHandler c]
         ++ (read_loop c maxMessageSize ins).1
         ++ [MapDelete c; WriteMessage c CloseMessage; Close c],
         Returned)
    end.
Proof.
  unfold handleClose. by destruct (read_loop c maxMessageSize ins) as [t []].
Qed.

Lemma close_count_app (c : Conn) (t1 t2 : Trace) :
  close_count c (t1 ++ t2) = close_count c t1 + close_count c t2.
Proof. unfold close_count. by rewrite closed_conns_app, filter_app, length_app. Qed.

Lemma handleClose_close_count (c c' : Conn) (ins : list Inbound) (s : Service) :
  close_count c (handleClose c' ins s).1.2 =
    match (handleClose c' ins s).2 with
    | Returned => if decide (c' = c) then 1 else 0
    | Running => 0
    end.
Proof.
  rewrite handleClose_eq.
  destruct (read_loop_quiet c' maxMessageSize ins false) as (_ & Hc & _).
  destruct (read_loop c' maxMessageSize ins) as [t st]. cbn [fst snd] in *.
  unfold close_count.
  destruct st; cbn [fst snd]; rewrite !closed_conns_app, Hc; simpl; [done|].
  rewrite filter_cons. by case_decide.
Qed.

Lemma filter_eq_absent (c : Conn) (l : list Conn) :
  c ∉ l → filter (λ x, x = c) l = [].
Proof.
  induction l as [|x l IH]; [done|].
  rewrite not_elem_of_cons. intros [Hne Hl].
  rewrite filter_cons. case_decide; [congruence|by apply IH].
Qed.

Lemma NoDup_count_le_1 (c : Conn) (l : list Conn) :
  NoDup l → length (filter (λ x, x = c) l) ≤ 1.
Proof.
  induction 1 as [|x l Hx Hnd IH]; [simpl; lia|].
  rewrite filter_cons. case_decide as Hxc; [|done].
  subst x. simpl.
  rewrite filter_eq_absent by done. simpl. lia.
Qed.

Lemma ForwardEvent_close_count (c : Conn) (e : Event) (wfail : Conn → bool)
    (order : list Conn) (s : Service) :
  range_order (wsClients s) order →
  close_count c (ForwardEvent e wfail order s).2 ≤ 1.
Proof.
  intros Ho. destruct (allowed e) eqn:Ha.
  - rewrite ForwardEvent_allowed by done. unfold snd.
    rewrite !close_count_app. unfold close_count at 1 3. simpl.
    unfold close_count. rewrite closed_conns_loop, Nat.add_0_r.
    apply NoDup_count_le_1, NoDup_filter. by eapply range_order_NoDup.
  - rewrite ForwardEvent_dropped by done. unfold close_count. simpl. lia.
Qed.

(** ** C5: removal of a connection, and how often it is closed *)

(** C5, as stated, fails: connection 1 is removed and closed by a failed
    broadcast write; its reader then leaves its loop, and although 1 is no
    longer registered the reader's removal sends a close frame and closes the
    connection once more. *)
Lemma C5_counterexample :
  let '(s1, t1) := ForwardEvent login_event (λ _, true) [1] (service_of [1]) in
  let '(s2, t2, st) := handleClose 1 [Fault ErrTimeout] s1 in
  wsClients s1 !! 1 = None
  ∧ st = Returned
  ∧ writes_to 1 t2 = [WriteMessage 1 CloseMessage]
  ∧ closed_conns t2 = [1]
  ∧ ¬ (close_count 1 (t1 ++ t2) ≤ 1).
Proof.
  vm_compute. repeat split; lia.
Qed.

(** C5, amended: deleting a connection that is absent leaves the registry
    unchanged and cannot fail, and each removal path closes a connection at
    most once: a broadcast pass at most once, a reader exactly once when it
    returns (and no connection but its own).  The paths do not know of each
    other: the reader's removal sends the close frame and closes whether or
    not the connection is still registered, so over both paths a connection
    is closed at most twice. *)
Theorem C5_removal_paths (c : Conn) :
  (∀ s, wsClients s !! c = None → (handleClose_deferred c s).1 = s)
  ∧ (∀ e wfail m, m !! c = None → (forward_one e wfail c m).1 = m)
  ∧ (∀ e wfail order s, range_order (wsClients s) order →
       close_count c (ForwardEvent e wfail order s).2 ≤ 1)
  ∧ (∀ c' ins s,
       close_count c (handleClose c' ins s).1.2 =
         match (handleClose c' ins s).2 with
         | Returned => if decide (c' = c) then 1 else 0
         | Running => 0
         end)
  ∧ (∀ s, (handleClose_deferred c s).2 =
          [MapDelete c; WriteMessage c CloseMessage; Close c])
  ∧ (∀ e wfail order s ins s',
       range_order (wsClients s) order →
       close_count c ((ForwardEvent e wfail order s).2 ++ (handleClose c ins s').1.2) ≤ 2).
Proof.
  split; [|split; [|split; [|split; [|split]]]].
  - intros [m mux] Hc. unfold handleClose_deferred. simpl in *.
    by rewrite delete_id.
  - intros e wfail m Hc. unfold forward_one.
    destruct (wfail c); [|done]. simpl. by rewrite delete_id.
  - intros e wfail order s. apply ForwardEvent_close_count.
  - intros c' ins s. apply handleClose_close_count.
  - done.
  - intros e wfail order s ins s' Ho. rewrite close_count_app.
    pose proof (ForwardEvent_close_count c e wfail order s Ho).
    rewrite handleClose_close_count.
    destruct (handleClose c ins s').2; [lia|]. case_decide; lia.
Qed.

Lemma C5_removal_paths_witness :
  range_order (wsClients (service_of [1])) [1]
  ∧ close_count 1 (ForwardEvent login_event (λ _, true) [1] (service_of [1])).2 ≤ 1.
Proof.
  split; [range_order_by_computation|].
  apply (C5_removal_paths 1). range_order_by_computation.
Defined.

(** ** C6: the heartbeat sender after a failed ping *)

Lemma ping_loop_eq (c : Conn) (ticks : list bool) :
  ping_loop c ticks =
    (ticks ≫= (λ _, [SetWriteDeadline c writeWait; WriteMessage c PingMessage]), Running).
Proof.
  induction ticks as [|werr rest IH]; [done|].
  simpl. by rewrite IH.
Qed.

Lemma pings_app (t1 t2 : Trace) : pings (t1 ++ t2) = pings t1 + pings t2.
Proof.
  induction t1 as [|a t1 IH]; [done|].
  destruct a as [| | | | | | |c' []| | | | | | | | | | |]; simpl; by rewrite ?IH.
Qed.

Lemma pings_ticks (c : Conn) (ticks : list bool) :
  pings (ticks ≫= (λ _, [SetWriteDeadline c writeWait; WriteMessage c PingMessage]))
  = length ticks.
Proof.
  induction ticks as [|w rest IH]; [done|].
  rewrite bind_cons, pings_app, IH. done.
Qed.

(** C6 fails on the code: the [break] on a failed ping write leaves the
    [select], not the [for]; whatever the outcomes of the writes, the sender
    is still in its loop and has sent one ping per tick, and the ticker is
    never stopped. *)
Theorem C6_ping_continues_after_failure (c : Conn) (ticks : list bool) :
  (pingWebSocket c ticks).2 = Running
  ∧ pings (pingWebSocket c ticks).1 = length ticks
  ∧ (StopTicker ∉ (pingWebSocket c ticks).1)
  ∧ pingWebSocket c [true; false] =
      ([NewTicker pingPeriod;
        SetWriteDeadline c writeWait; WriteMessage c PingMessage;
        SetWriteDeadline c writeWait; WriteMessage c PingMessage], Running).
Proof.
  unfold pingWebSocket. rewrite ping_loop_eq. cbn [fst snd].
  split; [done|]. rewrite app_nil_r. split; [|split; [|done]].
  - apply pings_ticks.
  - intros Hin. apply elem_of_cons in Hin as [?|Hin]; [done|].
    apply list_elem_of_bind in Hin as (w & Hin & _).
    rewrite !elem_of_cons, elem_of_nil in Hin. naive_solver.
Qed.

(** ** C7: the lock discipline *)

Lemma guarded_app (h : bool) (t rest : Trace) :
  forallb (step_ok h) t = true → guarded h (t ++ rest) = guarded h rest.
Proof.
  destruct h; (induction t as [|a t IH]; [done|]);
    simpl; intros [Ha Ht]%andb_true_iff;
    destruct a; simpl in *; try done; by apply IH.
Qed.

Lemma range_forward_step_ok (e : Event) (wfail : Conn → bool)
    (order : list Conn) (m : gmap nat bool) :
  forallb (step_ok true) (range_map (forward_one e wfail) order m).2 = true.
Proof.
  revert m. induction order as [|c rest IH]; intros m; [done|].
  simpl. destruct (m !! c); [|apply IH].
  rewrite forward_one_eq.
  specialize (IH (if wfail c then delete c m else m)).
  destruct (range_map _ rest _) as [m2 t2]. cbn [snd] in *.
  rewrite forallb_app, IH, andb_true_r.
  unfold forward_trace, forward_one. by destruct (wfail c).
Qed.

(** The admission path holds the mutex around its access to the map. *)
Lemma HandleWebsocket_guarded (up : Conn * option string) (s : Service) :
  guarded false (HandleWebsocket up s).1.2 = true.
Proof. destruct up as [c [err|]]; reflexivity. Qed.

(** The broadcast path holds the mutex for the whole pass. *)
Lemma ForwardEvent_guarded (e : Event) (wfail : Conn → bool)
    (order : list Conn) (s : Service) :
  guarded false (ForwardEvent e wfail order s).2 = true.
Proof.
  unfold ForwardEvent. destruct (allowed e); [|done].
  pose proof (range_forward_step_ok e wfail order (wsClients s)) as H.
  destruct (range_map _ order _) as [m t]. cbn [snd] in *.
  simpl. by rewrite guarded_app.
Qed.

(** The reporter reads the size of the map with no lock. *)
Lemma report_once_unguarded (ds : string) (gd : string → BasicDeviceInfo)
    (gr : string → BasicRoomInfo) (id : string) (messenger : option nat)
    (i : Interval) (rest : Trace) :
  guarded false (report_once ds gd gr id messenger i ++ rest) = false.
Proof. reflexivity. Qed.

(** C7 fails on the code: when the liveness reader returns, its deferred
    function deletes the connection from the map without ever taking the
    mutex, while the admission and the broadcast paths hold it around their
    accesses. *)
Theorem C7_reader_removal_takes_no_lock (c : Conn) (ins : list Inbound)
    (s s' : Service) (t : Trace) :
  handleClose c ins s = (s', t, Returned) →
  (Lock ∉ t)
  ∧ MapDelete c ∈ t
  ∧ wsClients s' = delete c (wsClients s)
  ∧ guarded false t = false.
Proof.
  rewrite handleClose_eq.
  destruct (read_loop_quiet c maxMessageSize ins false) as (Hq & _ & _).
  destruct (read_loop c maxMessageSize ins) as [rt st]. cbn [fst snd] in *.
  destruct st; intros Heq; simplify_eq.
  split; [|split; [|split]].
  - rewrite !elem_of_app, !elem_of_cons, !elem_of_nil.
    intros [H|[H|H]]; [naive_solver| |naive_solver].
    apply list_elem_of_In in H.
    rewrite forallb_forall in Hq. by apply Hq in H.
  - rewrite !elem_of_app, !elem_of_cons. naive_solver.
  - done.
  - change ([SetReadLimit c maxMessageSize; SetReadDeadline c pongWait; SetPongHandler c]
            ++ rt ++ ?d)
      with ([SetReadLimit c maxMessageSize; SetReadDeadline c pongWait; SetPongHandler c]
            ++ (rt ++ d)).
    rewrite guarded_app by done. by rewrite guarded_app.
Qed.

Lemma C7_reader_removal_takes_no_lock_witness :
  handleClose 1 [Fault ErrTimeout] (service_of [1]) =
    ({| wsClients := delete 1 (wsClients (service_of [1])); clientMux := false |},
     [SetReadLimit 1 maxMessageSize; SetReadDeadline 1 pongWait; SetPongHandler 1;
      ReadMessage 1; MapDelete 1; WriteMessage 1 CloseMessage; Close 1],
     Returned)
  ∧ guarded false
      [SetReadLimit 1 maxMessageSize; SetReadDeadline 1 pongWait; SetPongHandler 1;
       ReadMessage 1; MapDelete 1; WriteMessage 1 CloseMessage; Close 1] = false.
Proof.
  split; [reflexivity|].
  apply (C7_reader_removal_takes_no_lock 1 [Fault ErrTimeout] (service_of [1])
           {| wsClients := delete 1 (wsClients (service_of [1])); clientMux := false |}).
  reflexivity.
Defined.

(** ** C9: the telemetry reporter *)

Section ReporterFacts.
Variable DetailState : string.
Variable GenerateBasicDeviceInfo : string → BasicDeviceInfo.
Variable GenerateBasicRoomInfo : string → BasicRoomInfo.

Local Abbreviation count_event :=
  (count_event DetailState GenerateBasicDeviceInfo GenerateBasicRoomInfo).
Local Abbreviation report_once :=
  (report_once DetailState GenerateBasicDeviceInfo GenerateBasicRoomInfo).
Local Abbreviation report_loop :=
  (report_loop DetailState GenerateBasicDeviceInfo GenerateBasicRoomInfo).

Lemma report_loop_app (id : string) (messenger : option nat)
    (ticks1 ticks2 : list Interval) :
  report_loop id messenger (ticks1 ++ ticks2)
  = report_loop id messenger ticks1 ++ report_loop id messenger ticks2.
Proof.
  induction ticks1 as [|i rest IH]; [done|].
  simpl. by rewrite IH, !app_assoc.
Qed.

Lemma report_loop_sleeps (id : string) (messenger : option nat)
    (ticks : list Interval) :
  sleeps (report_loop id messenger ticks) = (λ _, Minute) <$> ticks.
Proof.
  induction ticks as [|i rest IH]; [done|].
  destruct messenger; simpl in *; by rewrite IH.
Qed.

Lemma report_loop_map_lens (id : string) (messenger : option nat)
    (ticks : list Interval) :
  map_lens (report_loop id messenger ticks)
  = ticks ≫= (λ i, [size (wsClients (at_service i)); size (wsClients (at_service i))]).
Proof.
  induction ticks as [|i rest IH]; [done|].
  destruct messenger; simpl in *; by rewrite IH.
Qed.

Lemma report_loop_error_logs (id : string) (messenger : option nat)
    (ticks : list Interval) :
  error_logs (report_loop id messenger ticks) = [].
Proof.
  induction ticks as [|i rest IH]; [done|].
  destruct messenger; simpl in *; by rewrite IH.
Qed.

Lemma report_loop_sent (id : string) (messenger : option nat)
    (ticks : list Interval) :
  sent_events (report_loop id messenger ticks)
  = match messenger with
    | Some _ => count_event id <$> ticks
    | None => []
    end.
Proof.
  induction ticks as [|i rest IH]; [by destruct messenger|].
  destruct messenger; simpl in *; by rewrite IH.
Qed.
End ReporterFacts.

(** C9: the reporter's loop never stops.  After any number of intervals, and
    whatever the emissions did, the reporter is still running; it has made one
    iteration per interval, each reading the size of the registry and pausing
    one minute, and the next interval adds one more iteration.  When a
    messenger was built every iteration sends one event with key
    "websocket-count" and the size as its value; when there is none the
    sending is skipped.  An error of the build is logged. *)
Theorem C9_reporter_never_stops (ds : string) (gd : string → BasicDeviceInfo)
    (gr : string → BasicRoomInfo) (id : string) (messenger : option nat)
    (err : option string) (ticks : list Interval) :
  let '(t, st) := reportWebSocketCount ds gd gr id (messenger, err) ticks in
  st = Running
  ∧ sleeps t = (λ _, Minute) <$> ticks
  ∧ map_lens t
    = ticks ≫= (λ i, [size (wsClients (at_service i)); size (wsClients (at_service i))])
  ∧ sent_events t
    = match messenger with
      | Some _ => count_event ds gd gr id <$> ticks
      | None => []
      end
  ∧ (∀ i, Key (count_event ds gd gr id i) = "websocket-count"%string
          ∧ Value (count_event ds gd gr id i) = pretty (size (wsClients (at_service i))))
  ∧ (∀ i, reportWebSocketCount ds gd gr id (messenger, err) (ticks ++ [i])
          = (t ++ report_once ds gd gr id messenger i, Running))
  ∧ error_logs t
    = match err with
      | Some _ => ["unable to build websocket count messenger: %s"%string]
      | None => []
      end.
Proof.
  unfold reportWebSocketCount.
  split; [done|].
  assert (Hobs : ∀ l : Trace,
            (l = [] ∨ l = [Log LError "unable to build websocket count messenger: %s"]) →
            sleeps (l ++ report_loop ds gd gr id messenger ticks)
              = sleeps (report_loop ds gd gr id messenger ticks)
            ∧ map_lens (l ++ report_loop ds gd gr id messenger ticks)
              = map_lens (report_loop ds gd gr id messenger ticks)
            ∧ sent_events (l ++ report_loop ds gd gr id messenger ticks)
              = sent_events (report_loop ds gd gr id messenger ticks)).
  { by intros l [-> | ->]. }
  destruct (Hobs (match err with
                  | Some _ => [Log LError "unable to build websocket count messenger: %s"]
                  | None => []
                  end)) as (-> & -> & ->); [destruct err; auto|].
  rewrite report_loop_sleeps, report_loop_map_lens, report_loop_sent.
  split; [done|]. split; [done|]. split; [done|]. split; [done|].
  split.
  - intros i. rewrite report_loop_app. simpl. by rewrite app_nil_r, !app_assoc.
  - destruct err; simpl; by rewrite report_loop_error_logs.
Qed.

(** ** C10: the read limit *)

Lemma read_frame_fits (p : string) :
  (Z.of_nat (String.length p) ≤ maxMessageSize)%Z →
  read_frame maxMessageSize p = inl p.
Proof.
  intros H. unfold read_frame.
  destruct (Z.ltb_spec maxMessageSize (Z.of_nat (String.length p))); [lia|].
  by rewrite andb_false_r.
Qed.

Lemma read_frame_over (p : string) :
  (maxMessageSize < Z.of_nat (String.length p))%Z →
  read_frame maxMessageSize p = inr ErrReadLimit.
Proof.
  intros H. unfold read_frame.
  destruct (Z.ltb_spec maxMessageSize (Z.of_nat (String.length p))); [done|lia].
Qed.

(** While everything that arrives fits, the reader stays in its loop. *)
Lemma read_loop_fits (c : Conn) (pre tail : list Inbound) :
  Forall fits pre →
  read_loop c maxMessageSize (pre ++ tail) =
    ((read_loop c maxMessageSize pre).1 ++ (read_loop c maxMessageSize tail).1,
     (read_loop c maxMessageSize tail).2).
Proof.
  induction 1 as [|i pre Hi Hpre IH];
    [simpl; by destruct (read_loop c maxMessageSize tail)|].
  destruct i as [p| |err]; [| |done].
  - cbn [app read_loop]. rewrite read_frame_fits by done. rewrite IH.
    by destruct (read_loop _ _ pre).
  - cbn [app read_loop]. rewrite IH. by destruct (read_loop _ _ pre).
Qed.

(** C10: the liveness reader, which is started for every admitted
    connection, first sets the read limit of the connection to
    [maxMessageSize], 512 bytes.  A client frame longer than that makes
    [ReadMessage] fail, and the reader does what it does on any failed read:
    it leaves its loop, deletes the connection from the registry, sends a
    close frame and closes the connection. *)
Theorem C10_read_limit (c : Conn) (pre rest : list Inbound) (payload : string)
    (s : Service) :
  Forall fits pre →
  (512 < Z.of_nat (String.length payload))%Z →
  handleClose c (pre ++ Frame payload :: rest) s =
    ({| wsClients := delete c (wsClients s); clientMux := clientMux s |},
     [SetReadLimit c 512%Z; SetReadDeadline c pongWait; SetPongHandler c]
     ++ (read_loop c 512%Z pre).1
     ++ [ReadMessage c]
     ++ [MapDelete c; WriteMessage c CloseMessage; Close c],
     Returned)
  ∧ (∀ err,
       handleClose c (pre ++ Fault err :: rest) s =
         ({| wsClients := delete c (wsClients s); clientMux := clientMux s |},
          [SetReadLimit c 512%Z; SetReadDeadline c pongWait; SetPongHandler c]
          ++ (read_loop c 512%Z pre).1
          ++ (ReadMessage c :: read_error_log err)
          ++ [MapDelete c; WriteMessage c CloseMessage; Close c],
          Returned))
  ∧ handleClose c (pre ++ Frame payload :: rest) s
    = handleClose c (pre ++ Fault ErrReadLimit :: rest) s
  ∧ ∀ up s0, Go (TaskHandleClose up.1) ∈ (HandleWebsocket up s0).1.2.
Proof.
  intros Hpre Hlen.
  change 512%Z with maxMessageSize in *.
  assert (Hfault : ∀ err,
    handleClose c (pre ++ Fault err :: rest) s =
      ({| wsClients := delete c (wsClients s); clientMux := clientMux s |},
       [SetReadLimit c maxMessageSize; SetReadDeadline c pongWait; SetPongHandler c]
       ++ (read_loop c maxMessageSize pre).1
       ++ (ReadMessage c :: read_error_log err)
       ++ [MapDelete c; WriteMessage c CloseMessage; Close c],
       Returned)).
  { intros err. rewrite handleClose_eq, read_loop_fits by done.
    cbn [read_loop fst snd]. by rewrite <- !app_assoc. }
  assert (Hsame : handleClose c (pre ++ Frame payload :: rest) s
                  = handleClose c (pre ++ Fault ErrReadLimit :: rest) s).
  { rewrite !handleClose_eq, !read_loop_fits by done.
    cbn [read_loop]. by rewrite read_frame_over. }
  split; [|split; [done|split; [done|]]].
  - rewrite Hsame. apply Hfault.
  - intros [c0 [err|]] s0; simpl; rewrite !elem_of_cons; naive_solver.
Qed.

Lemma C10_read_limit_witness :
  let big := String.concat "" (replicate 513 "x"%string) in
  (512 < Z.of_nat (String.length big))%Z
  ∧ handleClose 1 ([Frame "hello"; Pong] ++ Frame big :: []) (service_of [1; 2]) =
      ({| wsClients := delete 1 (wsClients (service_of [1; 2])); clientMux := false |},
       [SetReadLimit 1 512%Z; SetReadDeadline 1 pongWait; SetPongHandler 1]
       ++ (read_loop 1 512%Z [Frame "hello"; Pong]).1
       ++ [ReadMessage 1]
       ++ [MapDelete 1; WriteMessage 1 CloseMessage; Close 1],
       Returned).
Proof.
  intros big. split; [by vm_compute|].
  apply (C10_read_limit 1 [Frame "hello"; Pong] [] big (service_of [1; 2])).
  - repeat constructor. by vm_compute.
  - by vm_compute.
Defined.

(** * Further properties of the code *)

(** ** Observations distribute over concatenation *)

Ltac observer_app t1 IH :=
  induction t1 as [|a t1 IH]; [done|];
  destruct a; simpl; try (rewrite IH; done); try done.



Lemma read_deadlines_app (t1 t2 : Trace) :
  read_deadlines (t1 ++ t2) = read_deadlines t1 ++ read_deadlines t2.
Proof. observer_app t1 IH. Qed.

Lemma lock_ops_app (t1 t2 : Trace) :
  lock_ops (t1 ++ t2) = lock_ops t1 ++ lock_ops t2.
Proof. observer_app t1 IH. Qed.

Lemma info_logs_app (t1 t2 : Trace) :
  info_logs (t1 ++ t2) = info_logs t1 ++ info_logs t2.
Proof.
  induction t1 as [|a t1 IH]; [done|].
  destruct a as [| | | | | | | | | | | | |[]| | | | |]; simpl; by rewrite ?IH.
Qed.

Lemma error_logs_app (t1 t2 : Trace) :
  error_logs (t1 ++ t2) = error_logs t1 ++ error_logs t2.
Proof.
  induction t1 as [|a t1 IH]; [done|].
  destruct a as [| | | | | | | | | | | | |[]| | | | |]; simpl; by rewrite ?IH.
Qed.

(** A stretch of trace that passes [step_ok] has no operation on the mutex. *)
Lemma step_ok_lock_ops (h : bool) (t : Trace) :
  forallb (step_ok h) t = true → lock_ops t = [].
Proof.
  induction t as [|a t IH]; [done|].
  simpl. intros [Ha Ht]%andb_true_iff.
  destruct a; simpl in *; try done; by apply IH.
Qed.

(** ** Admission *)

(** X1: whatever the upgrade returned, [HandleWebsocket] returns no error,
    registers the connection it was given with the value [true] and leaves
    every other entry alone; the registry grows by one when the connection
    was not registered and keeps its size otherwise.  One reader and one
    heartbeat sender are started for the connection, the map is accessed under
    the mutex, and the mutex is free afterwards. *)
Theorem X1_admission_adds_connection (c : Conn) (err : option string) (s : Service) :
  let '(s', t, ret) := HandleWebsocket (c, err) s in
  ret = None
  ∧ wsClients s' !! c = Some true
  ∧ (∀ c', c' ≠ c → wsClients s' !! c' = wsClients s !! c')
  ∧ size (wsClients s')
    = match wsClients s !! c with
      | Some _ => size (wsClients s)
      | None => S (size (wsClients s))
      end
  ∧ spawned t = [TaskHandleClose c; TaskPingWebSocket c]
  ∧ lock_ops t = [Lock; Unlock]
  ∧ guarded false t = true
  ∧ clientMux s' = false.
Proof.
  unfold HandleWebsocket. cbn [wsClients clientMux].
  split; [done|]. split; [apply lookup_insert_eq|].
  split; [intros c' Hne; by apply lookup_insert_ne|].
  split; [|by destruct err].
  rewrite map_size_insert. by destruct (wsClients s !! c).
Qed.

(** ** The broadcast pass *)

(** X2: a broadcast pass holds the mutex from before its first access to the
    map until after its last: the trace of [ForwardEvent] obeys the lock
    discipline in whatever order the map is visited, the only operations on
    the mutex are one [Lock] at the start and one [Unlock] at the end, and an
    event that is filtered out does not touch the mutex at all. *)
Theorem X2_broadcast_holds_lock (e : Event) (wfail : Conn → bool)
    (order : list Conn) (s : Service) :
  let t := (ForwardEvent e wfail order s).2 in
  guarded false t = true
  ∧ lock_ops t = (if allowed e then [Lock; Unlock] else [])
  ∧ (if allowed e
     then head t = Some Lock ∧ last t = Some Unlock
          ∧ clientMux (ForwardEvent e wfail order s).1 = false
     else t = []).
Proof.
  unfold ForwardEvent. destruct (allowed e); [|done].
  pose proof (range_forward_step_ok e wfail order (wsClients s)) as Hok.
  destruct (range_map _ order _) as [m t]. cbn [fst snd clientMux] in *.
  split; [simpl; by rewrite guarded_app|].
  split.
  - rewrite !lock_ops_app, (step_ok_lock_ops _ _ Hok). done.
  - split; [done|]. split; [|done].
    rewrite app_assoc. apply last_snoc.
Qed.

(** X3: the outcome of a broadcast pass does not depend on the order in which
    the [range] visits the map: for two orders the service afterwards is the
    same, and the traces are permutations of each other. *)
Theorem X3_order_independent (e : Event) (wfail : Conn → bool)
    (order1 order2 : list Conn) (s : Service) :
  range_order (wsClients s) order1 →
  range_order (wsClients s) order2 →
  (ForwardEvent e wfail order1 s).1 = (ForwardEvent e wfail order2 s).1
  ∧ (ForwardEvent e wfail order1 s).2 ≡ₚ (ForwardEvent e wfail order2 s).2.
Proof.
  intros H1 H2. destruct (allowed e) eqn:Ha.
  - rewrite !ForwardEvent_allowed by done. cbn [fst snd]. split.
    + f_equal. apply map_eq. intros c.
      by rewrite !prune_range_order.
    + assert (order1 ≡ₚ order2) as Hperm.
      { unfold range_order in *. by rewrite H1, H2. }
      by rewrite Hperm.
  - by rewrite !ForwardEvent_dropped.
Qed.

Lemma X3_order_independent_witness :
  let wfail := λ c : nat, bool_decide (c = 2) in
  (ForwardEvent login_event wfail [1; 2; 3] (service_of [1; 2; 3])).1
  = (ForwardEvent login_event wfail [3; 2; 1] (service_of [1; 2; 3])).1.
Proof.
  intros wfail.
  apply (X3_order_independent login_event wfail [1; 2; 3] [3; 2; 1]
           (service_of [1; 2; 3])); range_order_by_computation.
Defined.

Lemma prune_size (wfail : Conn → bool) (order : list Conn) (m : gmap nat bool) :
  NoDup order →
  (∀ c, c ∈ order → is_Some (m !! c)) →
  size (prune wfail order m) + length (filter (λ c, wfail c = true) order) = size m.
Proof.
  revert m. induction order as [|c rest IH]; intros m Hnd Hin.
  { simpl. lia. }
  apply NoDup_cons in Hnd as [Hc Hnd].
  unfold prune in *. simpl. rewrite filter_cons.
  destruct (wfail c) eqn:Hw.
  - rewrite decide_True by done. simpl.
    rewrite Nat.add_succ_r, IH; [|done|].
    + rewrite map_size_delete_Some by (apply Hin; left).
      assert (size m ≠ 0); [|lia].
      intros Hz. apply map_size_empty_inv in Hz. subst m.
      destruct (Hin c) as [? Hx]; [left|]. by rewrite lookup_empty in Hx.
    + intros c' Hc'. rewrite lookup_delete_ne; [apply Hin; by right|].
      intros ->. done.
  - rewrite decide_False by congruence.
    apply IH; [done|]. intros c' Hc'. apply Hin. by right.
Qed.

(** X4: a broadcast pass never adds to the registry, and the registry shrinks
    by exactly the number of connections the pass closed; the connections
    deleted are the connections closed. *)
Theorem X4_size_accounting (e : Event) (wfail : Conn → bool)
    (order : list Conn) (s : Service) :
  range_order (wsClients s) order →
  let '(s', t) := ForwardEvent e wfail order s in
  size (wsClients s') + length (closed_conns t) = size (wsClients s)
  ∧ dom (wsClients s') ⊆ dom (wsClients s)
  ∧ deleted_conns t = closed_conns t.
Proof.
  intros Ho. destruct (allowed e) eqn:Ha.
  - rewrite ForwardEvent_allowed by done. cbn [wsClients].
    change (Lock :: ?t) with ([Lock] ++ t).
    rewrite !closed_conns_app, !deleted_conns_app, closed_conns_loop, deleted_conns_loop.
    simpl. rewrite !app_nil_r.
    split; [|split; [|done]].
    + apply prune_size; [by eapply range_order_NoDup|].
      intros c. by rewrite (range_order_elem _ _ _ Ho).
    + intros c. rewrite !elem_of_dom, prune_range_order by done.
      destruct (wfail c); [by intros [? ?]|done].
  - rewrite ForwardEvent_dropped by done. simpl. split; [lia|done].
Qed.

Lemma X4_size_accounting_witness :
  let '(s', t) := ForwardEvent login_event (λ c, bool_decide (c = 2)) [3; 2; 1]
                    (service_of [1; 2; 3]) in
  size (wsClients s') + length (closed_conns t) = size (wsClients (service_of [1; 2; 3])).
Proof.
  pose proof (X4_size_accounting login_event (λ c, bool_decide (c = 2)) [3; 2; 1]
                (service_of [1; 2; 3])) as H.
  destruct (ForwardEvent _ _ _ _) as [s' t].
  apply H. range_order_by_computation.
Defined.

(** X5: when the write succeeds on every registered connection, a broadcast
    pass leaves the registry as it was: each connection has its write deadline
    set and is written to, and nothing is logged, deleted or closed. *)
Theorem X5_healthy_pass (e : Event) (wfail : Conn → bool)
    (order : list Conn) (s : Service) :
  allowed e = true →
  range_order (wsClients s) order →
  (∀ c, is_Some (wsClients s !! c) → wfail c = false) →
  ForwardEvent e wfail order s =
    ({| wsClients := wsClients s; clientMux := false |},
     [Lock]
     ++ (order ≫= (λ c, [SetWriteDeadline c writeWait; WriteJSON c e]))
     ++ [Unlock]).
Proof.
  intros Ha Ho Hok. rewrite ForwardEvent_allowed by done.
  f_equal; [f_equal|f_equal; f_equal].
  - apply map_eq. intros c. rewrite prune_range_order by done.
    destruct (wfail c) eqn:Hw; [|done].
    destruct (wsClients s !! c) eqn:Hc; [|done].
    rewrite Hok in Hw by eauto. done.
  - assert (Hall : Forall (λ c, wfail c = false) order).
    { apply Forall_forall. intros c Hc. apply Hok.
      by apply (range_order_elem _ _ _ Ho). }
    clear Ho Hok. induction Hall as [|c rest Hc Hrest IH]; [done|].
    rewrite !bind_cons, IH. unfold forward_trace, forward_one. by rewrite Hc.
Qed.

Lemma X5_healthy_pass_witness :
  ForwardEvent login_event (λ _, false) [2; 1] (service_of [1; 2]) =
    ({| wsClients := wsClients (service_of [1; 2]); clientMux := false |},
     [Lock]
     ++ ([2; 1] ≫= (λ c, [SetWriteDeadline c writeWait; WriteJSON c login_event]))
     ++ [Unlock]).
Proof.
  apply (X5_healthy_pass login_event (λ _, false) [2; 1] (service_of [1; 2]));
    [reflexivity|range_order_by_computation|done].
Defined.

(** X6: two broadcast passes in a row remove the connections that failed in
    either of them and keep all others, and a connection closed by the first
    pass is not written to by the second. *)
Theorem X6_passes_compose (e1 e2 : Event) (wfail1 wfail2 : Conn → bool)
    (order1 order2 : list Conn) (s : Service) :
  allowed e1 = true →
  allowed e2 = true →
  range_order (wsClients s) order1 →
  range_order (wsClients (ForwardEvent e1 wfail1 order1 s).1) order2 →
  let '(s1, t1) := ForwardEvent e1 wfail1 order1 s in
  let '(s2, t2) := ForwardEvent e2 wfail2 order2 s1 in
  (∀ c, wsClients s2 !! c
        = if wfail1 c || wfail2 c then None else wsClients s !! c)
  ∧ (∀ c, c ∈ closed_conns t1 → (c ∉ json_targets t2) ∧ (c ∉ closed_conns t2)).
Proof.
  intros Ha1 Ha2 Ho1.
  rewrite (ForwardEvent_allowed e1 wfail1 order1 s Ha1 Ho1). cbn [fst]. intros Ho2.
  rewrite ForwardEvent_allowed by done. cbn [wsClients].
  split.
  - intros c. rewrite !prune_range_order by done.
    by destruct (wfail1 c), (wfail2 c).
  - intros c.
    change (Lock :: ?t) with ([Lock] ++ t).
    rewrite !closed_conns_app, !json_targets_app, !closed_conns_loop, json_targets_loop.
    simpl. rewrite !app_nil_r.
    rewrite !list_elem_of_filter. intros [Hw Hc].
    assert (c ∉ order2) as Hno.
    { rewrite (range_order_elem _ _ _ Ho2). cbn [wsClients].
      rewrite prune_range_order, Hw by done. by intros [? ?]. }
    tauto.
Qed.

Lemma X6_passes_compose_witness :
  let w1 := λ c : nat, bool_decide (c = 1) in
  let w2 := λ c : nat, bool_decide (c = 3) in
  let '(s1, t1) := ForwardEvent login_event w1 [1; 2; 3] (service_of [1; 2; 3]) in
  let '(s2, t2) := ForwardEvent login_event w2 [3; 2] s1 in
  wsClients s2 !! 1 = None
  ∧ wsClients s2 !! 2 = wsClients (service_of [1; 2; 3]) !! 2
  ∧ wsClients s2 !! 3 = None.
Proof.
  intros w1 w2.
  pose proof (X6_passes_compose login_event login_event w1 w2 [1; 2; 3] [3; 2]
                (service_of [1; 2; 3])) as H.
  destruct (ForwardEvent login_event w1 [1; 2; 3] (service_of [1; 2; 3])) as [s1 t1] eqn:E1.
  destruct (ForwardEvent login_event w2 [3; 2] s1) as [s2 t2].
  destruct H as [H _]; [reflexivity|reflexivity|range_order_by_computation| |].
  - vm_compute in E1. injection E1 as <- _. range_order_by_computation.
  - split; [apply (H 1)|split; [apply (H 2)|apply (H 3)]].
Defined.



(** X8: a broadcast pass never writes to and never closes a connection that
    is not registered, and it never deletes or closes a connection whose write
    succeeded: such a connection keeps its entry. *)
Theorem X8_only_registered_and_failing (e : Event) (wfail : Conn → bool)
    (order : list Conn) (s : Service) (c : Conn) :
  range_order (wsClients s) order →
  let '(s', t) := ForwardEvent e wfail order s in
  (wsClients s !! c = None →
     writes_to c t = [] ∧ (c ∉ closed_conns t) ∧ wsClients s' !! c = None)
  ∧ (wfail c = false →
     (c ∉ closed_conns t) ∧ (c ∉ deleted_conns t)
     ∧ wsClients s' !! c = wsClients s !! c).
Proof.
  intros Ho. destruct (allowed e) eqn:Ha.
  - rewrite ForwardEvent_allowed by done.
    rewrite writes_to_locked.
    change (Lock :: ?t) with ([Lock] ++ t).
    rewrite !closed_conns_app, !deleted_conns_app, closed_conns_loop, deleted_conns_loop.
    simpl. rewrite !app_nil_r, writes_to_loop, !list_elem_of_filter.
    rewrite prune_range_order by done.
    rewrite (range_order_elem _ _ _ Ho).
    split.
    + intros Hc. rewrite Hc. split; [by intros [? ?]|].
      split; [intros [_ [? ?]]; done|by destruct (wfail c)].
    + intros Hw. rewrite Hw. split; [|split; [|done]]; intros [? _]; done.
  - rewrite ForwardEvent_dropped by done. simpl.
    split; intros H; repeat split; try done; apply not_elem_of_nil.
Qed.

Lemma X8_only_registered_and_failing_witness :
  let '(s', t) := ForwardEvent login_event (λ c, bool_decide (c = 1)) [1; 2]
                    (service_of [1; 2]) in
  writes_to 7 t = [] ∧ (7 ∉ closed_conns t) ∧ wsClients s' !! 7 = None.
Proof.
  pose proof (X8_only_registered_and_failing login_event (λ c, bool_decide (c = 1))
                [1; 2] (service_of [1; 2]) 7) as H.
  destruct (ForwardEvent _ _ _ _) as [s' t].
  destruct H as [H _]; [range_order_by_computation|].
  apply H. reflexivity.
Defined.

(** ** The liveness reader *)

(** The reader's loop writes nothing and logs nothing at error level. *)
Lemma read_loop_silent (c : Conn) (limit : Z) (ins : list Inbound) :
  writes (read_loop c limit ins).1 = []
  ∧ error_logs (read_loop c limit ins).1 = [].
Proof.
  induction ins as [|i rest IH]; [done|].
  destruct i as [p| |err]; simpl.
  - destruct (read_frame limit p) as [msg|err'].
    + destruct (read_loop c limit rest) as [t st]. simpl in *. done.
    + simpl. unfold read_error_log. by destruct (IsCloseError _ _).
  - destruct (read_loop c limit rest) as [t st]. simpl in *. done.
  - unfold read_error_log. by destruct (IsCloseError _ _).
Qed.

(** What the loop does on input that fits. *)
Lemma read_loop_all_fit (c : Conn) (ins : list Inbound) :
  Forall fits ins →
  (read_loop c maxMessageSize ins).2 = Running
  ∧ info_logs (read_loop c maxMessageSize ins).1
    = replicate (frames ins) "Received message from socket: %s"%string
  ∧ read_deadlines (read_loop c maxMessageSize ins).1
    = replicate (pongs ins) (c, pongWait).
Proof.
  induction 1 as [|i rest Hi Hrest IH]; [done|].
  destruct i as [p| |err]; [| |done]; cbn [read_loop].
  - rewrite read_frame_fits by done.
    destruct (read_loop c maxMessageSize rest) as [t st].
    simpl in *. destruct IH as (-> & -> & ->). done.
  - destruct (read_loop c maxMessageSize rest) as [t st].
    simpl in *. destruct IH as (-> & -> & ->). done.
Qed.

(** X9: as long as everything that arrives is a pong or a frame of at most
    512 bytes, the reader stays in its loop and leaves the service alone: it
    deletes, closes and writes nothing.  It logs one info line per frame, and
    sets the read deadline to [pongWait] once at the start and once more per
    pong. *)
Theorem X9_reader_keeps_connection (c : Conn) (ins : list Inbound) (s : Service) :
  Forall fits ins →
  let '(s', t, st) := handleClose c ins s in
  st = Running
  ∧ s' = s
  ∧ closed_conns t = []
  ∧ deleted_conns t = []
  ∧ writes t = []
  ∧ error_logs t = []
  ∧ info_logs t = replicate (frames ins) "Received message from socket: %s"%string
  ∧ read_deadlines t = replicate (S (pongs ins)) (c, pongWait).
Proof.
  intros Hfit. rewrite handleClose_eq.
  destruct (read_loop_all_fit c ins Hfit) as (Hst & Hinfo & Hdl).
  destruct (read_loop_quiet c maxMessageSize ins false) as (_ & Hcl & Hdel).
  destruct (read_loop_silent c maxMessageSize ins) as (Hw & Herr).
  rewrite Hst.
  rewrite closed_conns_app, deleted_conns_app, writes_app, error_logs_app,
    info_logs_app, read_deadlines_app.
  rewrite Hcl, Hdel, Hw, Herr, Hinfo, Hdl. done.
Qed.

Lemma X9_reader_keeps_connection_witness :
  let '(s', t, st) := handleClose 1 [Frame "hello"; Pong; Pong] (service_of [1]) in
  st = Running ∧ s' = service_of [1].
Proof.
  pose proof (X9_reader_keeps_connection 1 [Frame "hello"; Pong; Pong]
                (service_of [1])) as H.
  destruct (handleClose _ _ _) as [[s' t] st].
  destruct H as (Hst & Hs & _); [|done].
  repeat constructor. by vm_compute.
Defined.

Lemma fits_dec (i : Inbound) : fits i ∨ ¬ fits i.
Proof.
  destruct i as [p| |err]; simpl; [|by left|by right; intros []].
  destruct (decide (Z.of_nat (String.length p) ≤ maxMessageSize)%Z); auto.
Qed.

Lemma read_loop_unfit (c : Conn) (i : Inbound) (rest : list Inbound) :
  ¬ fits i →
  read_loop c maxMessageSize (i :: rest) = read_loop c maxMessageSize [i]
  ∧ (read_loop c maxMessageSize [i]).2 = Returned.
Proof.
  destruct i as [p| |err]; simpl; intros Hno; [|done|done].
  rewrite read_frame_over by lia. done.
Qed.

(** X10: the reader returns exactly when something arrives that is neither a
    pong nor a frame of at most 512 bytes, and it returns at the first such
    item: what arrives after it makes no difference. *)
Theorem X10_reader_returns_at_first_failure (c : Conn) (s : Service) :
  (∀ ins, (handleClose c ins s).2 = Returned ↔ Exists (λ i, ¬ fits i) ins)
  ∧ (∀ pre i rest,
       Forall fits pre → ¬ fits i →
       handleClose c (pre ++ i :: rest) s = handleClose c (pre ++ [i]) s).
Proof.
  split.
  - intros ins. rewrite handleClose_eq.
    assert ((read_loop c maxMessageSize ins).2 = Returned
            ↔ Exists (λ i, ¬ fits i) ins) as <-.
    { induction ins as [|i rest IH].
      - split; [done|]. intros H. inversion H.
      - rewrite Exists_cons, <- IH.
        destruct (fits_dec i) as [Hi|Hi].
        + change (i :: rest) with ([i] ++ rest).
          rewrite read_loop_fits by (by constructor). cbn [snd]. tauto.
        + destruct (read_loop_unfit c i rest Hi) as [-> ->]. tauto. }
    by destruct (read_loop c maxMessageSize ins) as [t []].
  - intros pre i rest Hpre Hi.
    rewrite !handleClose_eq, !read_loop_fits by done.
    by destruct (read_loop_unfit c i rest Hi) as [-> _].
Qed.

Lemma X10_reader_returns_at_first_failure_witness :
  handleClose 1 ([Pong] ++ Fault ErrTimeout :: [Frame "late"]) (service_of [1])
  = handleClose 1 ([Pong] ++ [Fault ErrTimeout]) (service_of [1]).
Proof.
  apply (X10_reader_returns_at_first_failure 1 (service_of [1])).
  - by repeat constructor.
  - simpl. tauto.
Defined.

(** X11: a reader that returns removes its own connection and nothing else:
    afterwards the connection is not registered, every other entry and the
    mutex are as before, the registry has shrunk by one if the connection was
    still registered, and the only write of the whole run is the close frame
    on that connection, followed by its [Close] as the last action. *)
Theorem X11_reader_removes_only_its_own (c : Conn) (ins : list Inbound) (s : Service) :
  (handleClose c ins s).2 = Returned →
  let '(s', t, _) := handleClose c ins s in
  wsClients s' !! c = None
  ∧ (∀ c', c' ≠ c → wsClients s' !! c' = wsClients s !! c')
  ∧ clientMux s' = clientMux s
  ∧ size (wsClients s')
    = match wsClients s !! c with
      | Some _ => pred (size (wsClients s))
      | None => size (wsClients s)
      end
  ∧ writes t = [WriteMessage c CloseMessage]
  ∧ closed_conns t = [c]
  ∧ deleted_conns t = [c]
  ∧ last t = Some (Close c).
Proof.
  rewrite handleClose_eq.
  destruct (read_loop_quiet c maxMessageSize ins false) as (_ & Hcl & Hdel).
  destruct (read_loop_silent c maxMessageSize ins) as (Hw & _).
  destruct (read_loop c maxMessageSize ins) as [rt st]. cbn [fst snd] in *.
  destruct st; [done|]. intros _. cbn [wsClients clientMux].
  rewrite !closed_conns_app, !deleted_conns_app, !writes_app, Hcl, Hdel, Hw.
  split; [apply lookup_delete_eq|].
  split; [intros c' Hne; by apply lookup_delete_ne|].
  split; [done|].
  split; [rewrite map_size_delete; by destruct (wsClients s !! c)|].
  split; [done|]. split; [done|]. split; [done|].
  change [MapDelete c; WriteMessage c CloseMessage; Close c]
    with ([MapDelete c; WriteMessage c CloseMessage] ++ [Close c]).
  rewrite !app_assoc. apply last_snoc.
Qed.

Lemma X11_reader_removes_only_its_own_witness :
  let '(s', t, _) := handleClose 1 [Fault ErrTimeout] (service_of [1; 2]) in
  wsClients s' !! 1 = None ∧ closed_conns t = [1].
Proof.
  pose proof (X11_reader_removes_only_its_own 1 [Fault ErrTimeout]
                (service_of [1; 2])) as H.
  destruct (handleClose _ _ _) as [[s' t] st] eqn:E.
  destruct H as (H1 & _ & _ & _ & _ & H2 & _); [|done].
  vm_compute in E. by injection E as _ _ <-.
Defined.

(** X12: when a read fails after input that fits, the reader logs at info
    level one line per frame it received and then, only if the failure is a
    close error with code 1001 (going away), the line "error: %v"; a deadline
    expiry, an oversize frame and every other failure end it without a line.
    It never logs at error level. *)
Theorem X12_reader_logging (c : Conn) (pre rest : list Inbound) (err : ReadError)
    (s : Service) :
  Forall fits pre →
  let t := (handleClose c (pre ++ Fault err :: rest) s).1.2 in
  error_logs t = []
  ∧ info_logs t
    = replicate (frames pre) "Received message from socket: %s"%string
      ++ match err with
         | CloseError code => if bool_decide (code = 1001%Z) then ["error: %v"%string] else []
         | _ => []
         end.
Proof.
  intros Hpre. rewrite handleClose_eq, read_loop_fits by done.
  destruct (read_loop_all_fit c pre Hpre) as (_ & Hinfo & _).
  destruct (read_loop_silent c maxMessageSize pre) as (_ & Herr).
  cbn [read_loop fst snd].
  rewrite !error_logs_app, !info_logs_app, Herr, Hinfo.
  unfold read_error_log, IsCloseError, CloseGoingAway.
  destruct err as [code| | |]; [destruct (bool_decide (code = 1001%Z))|..];
    simpl; by rewrite ?app_nil_r.
Qed.

Lemma X12_reader_logging_witness :
  info_logs (handleClose 1 ([Frame "a"] ++ Fault (CloseError 1001) :: []) (service_of [1])).1.2
  = ["Received message from socket: %s"; "error: %v"]%string.
Proof.
  apply (X12_reader_logging 1 [Frame "a"] [] (CloseError 1001) (service_of [1])).
  repeat constructor. by vm_compute.
Defined.

(** ** The heartbeat sender *)



(** ** How the operations compose *)

(** X14: admitting a connection that was not registered and then letting its
    reader return brings the registry back to what it was before the
    admission. *)
Theorem X14_admit_then_reader_exit (c : Conn) (err : option string)
    (ins : list Inbound) (s : Service) :
  wsClients s !! c = None →
  (handleClose c ins (HandleWebsocket (c, err) s).1.1).2 = Returned →
  wsClients (handleClose c ins (HandleWebsocket (c, err) s).1.1).1.1 = wsClients s.
Proof.
  intros Hc. rewrite handleClose_eq.
  destruct (read_loop c maxMessageSize ins) as [t []]; [done|].
  intros _. cbn [fst snd wsClients HandleWebsocket].
  rewrite delete_insert_eq. by apply delete_id.
Qed.

Lemma X14_admit_then_reader_exit_witness :
  wsClients (handleClose 3 [Fault ErrTimeout]
               (HandleWebsocket (3, None) (service_of [1; 2])).1.1).1.1
  = wsClients (service_of [1; 2]).
Proof.
  apply (X14_admit_then_reader_exit 3 None [Fault ErrTimeout] (service_of [1; 2]));
    reflexivity.
Defined.

(** X15: admitting a connection that was not registered and then running a
    broadcast pass in which the write to it fails, and to no other, also
    brings the registry back to what it was; the new connection is the one
    connection closed. *)
Theorem X15_admit_then_failed_write (c : Conn) (err : option string) (e : Event)
    (wfail : Conn → bool) (order : list Conn) (s : Service) :
  wsClients s !! c = None →
  allowed e = true →
  range_order (<[c := true]> (wsClients s)) order →
  wfail c = true →
  (∀ c', is_Some (wsClients s !! c') → wfail c' = false) →
  let '(s', t) := ForwardEvent e wfail order (HandleWebsocket (c, err) s).1.1 in
  wsClients s' = wsClients s ∧ closed_conns t = [c].
Proof.
  intros Hc Ha Ho Hw Hok. cbn [HandleWebsocket fst].
  rewrite ForwardEvent_allowed by done. cbn [wsClients].
  change (Lock :: ?t) with ([Lock] ++ t).
  rewrite !closed_conns_app, closed_conns_loop. simpl. rewrite app_nil_r.
  split.
  - apply map_eq. intros k. rewrite prune_range_order by done.
    destruct (decide (k = c)) as [->|Hne].
    + by rewrite Hw, Hc.
    + rewrite lookup_insert_ne by done.
      destruct (wfail k) eqn:Hk; [|done].
      destruct (wsClients s !! k) eqn:Hl; [|done].
      rewrite Hok in Hk by eauto. done.
  - assert (Hin : c ∈ order).
    { apply (range_order_elem _ _ _ Ho). rewrite lookup_insert_eq. eauto. }
    pose proof (range_order_NoDup _ _ Ho) as Hnd.
    assert (Hothers : ∀ k, k ∈ order → k ≠ c → wfail k = false).
    { intros k Hk Hne. apply Hok.
      apply (range_order_elem _ _ _ Ho) in Hk. by rewrite lookup_insert_ne in Hk. }
    clear Ho Hok Hc. induction order as [|k rest IH]; [by apply elem_of_nil in Hin|].
    apply NoDup_cons in Hnd as [Hk Hnd]. rewrite filter_cons.
    destruct (decide (k = c)) as [->|Hne].
    + rewrite decide_True by done. f_equal.
      assert (Forall (λ x, ¬ wfail x = true) rest) as Hall.
      { apply Forall_forall. intros x Hx.
        rewrite Hothers; [done|by right|]. intros ->. done. }
      clear -Hall. induction Hall as [|x l Hx Hl IH]; [done|].
      rewrite filter_cons. by rewrite decide_False.
    + rewrite decide_False by (rewrite Hothers; [done|by left|done]).
      apply IH; [|done|].
      * apply elem_of_cons in Hin as [?|?]; [congruence|done].
      * intros x Hx. apply Hothers. by right.
Qed.

Lemma X15_admit_then_failed_write_witness :
  let wfail := λ c : nat, bool_decide (c = 3) in
  let '(s', t) := ForwardEvent login_event wfail [1; 3; 2]
                    (HandleWebsocket (3, None) (service_of [1; 2])).1.1 in
  wsClients s' = wsClients (service_of [1; 2]) ∧ closed_conns t = [3].
Proof.
  intros wfail.
  apply (X15_admit_then_failed_write 3 None login_event wfail [1; 3; 2]
           (service_of [1; 2])); [reflexivity|reflexivity| |reflexivity|].
  - range_order_by_computation.
  - intros c' [b Hb]. unfold wfail. apply bool_decide_eq_false. intros ->.
    vm_compute in Hb. discriminate.
Defined.

(** A pass only ever deletes, in whatever order it visits. *)
Lemma range_forward_shrinks (e : Event) (wfail : Conn → bool) (order : list Conn)
    (m : gmap nat bool) (c : Conn) (b : bool) :
  (range_map (forward_one e wfail) order m).1 !! c = Some b → m !! c = Some b.
Proof.
  revert m. induction order as [|k rest IH]; intros m; [done|].
  simpl. destruct (m !! k); [|apply IH].
  rewrite forward_one_eq.
  specialize (IH (if wfail k then delete k m else m)).
  destruct (range_map _ rest _) as [m2 t2]. cbn [fst] in *.
  intros H. apply IH in H. destruct (wfail k); [|done].
  apply lookup_delete_Some in H. tauto.
Qed.

Lemma call_invariant (k : Call) (s : Service) :
  clientMux s = false →
  clientMux (call k s).1 = false
  ∧ ∀ c b, wsClients (call k s).1 !! c = Some b →
      wsClients s !! c = Some b
      ∨ (b = true ∧ ∃ err, k = CallHandleWebsocket (c, err)).
Proof.
  intros Hmux. destruct k as [[c0 err]|e wfail order|c0 ins]; simpl.
  - split; [done|]. intros c b.
    destruct (decide (c = c0)) as [->|Hne].
    + rewrite lookup_insert_eq. intros [= <-]. right. eauto.
    + rewrite lookup_insert_ne by done. auto.
  - unfold ForwardEvent. destruct (allowed e); [|by auto].
    pose proof (range_forward_shrinks e wfail order (wsClients s)) as Hs.
    destruct (range_map _ order _) as [m t]. cbn [fst wsClients clientMux] in *.
    split; [done|]. intros c b H. left. by apply Hs.
  - rewrite handleClose_eq.
    destruct (read_loop c0 maxMessageSize ins) as [t []]; cbn [fst snd]; [by auto|].
    cbn [wsClients clientMux]. split; [done|].
    intros c b H. apply lookup_delete_Some in H. tauto.
Qed.

(** X16: from a new service, after any sequence of admissions, broadcast
    passes and reader returns, in any order and whatever failed on the way,
    the mutex is free, every value stored in the map is [true] (the map is a
    set), and every connection registered is one that an admission in the
    sequence put there. *)
Theorem X16_registry_invariant (calls : list Call) :
  let s := (run calls New.1).1 in
  clientMux s = false
  ∧ ∀ c b, wsClients s !! c = Some b →
      b = true ∧ ∃ err, CallHandleWebsocket (c, err) ∈ calls.
Proof.
  assert (Hgen : ∀ calls s, clientMux s = false →
    clientMux (run calls s).1 = false
    ∧ ∀ c b, wsClients (run calls s).1 !! c = Some b →
        wsClients s !! c = Some b
        ∨ (b = true ∧ ∃ err, CallHandleWebsocket (c, err) ∈ calls)).
  { clear calls. intros calls. induction calls as [|k rest IH]; intros s Hmux.
    { simpl. auto. }
    destruct (call_invariant k s Hmux) as [Hmux1 Hreg1].
    simpl. destruct (call k s) as [s1 t1]. cbn [fst] in *.
    destruct (IH s1 Hmux1) as [Hmux2 Hreg2].
    destruct (run rest s1) as [s2 t2]. cbn [fst] in *.
    split; [done|]. intros c b H.
    destruct (Hreg2 c b H) as [H1|(-> & err & Hin)].
    - destruct (Hreg1 c b H1) as [?|(-> & err & ->)]; [by left|].
      right. split; [done|]. exists err. by left.
    - right. split; [done|]. exists err. by right. }
  destruct (Hgen calls New.1 eq_refl) as [Hmux Hreg].
  split; [done|]. intros c b H.
  destruct (Hreg c b H) as [H0|?]; [|done].
  simpl in H0. by rewrite lookup_empty in H0.
Qed.

(** ** The telemetry reporter *)

(** X17: the value of a count event is the size of the registry written in
    decimal, so two count events carry the same value exactly when the
    registry had the same size. *)
Theorem X17_count_value_determines_size (ds : string) (gd : string → BasicDeviceInfo)
    (gr : string → BasicRoomInfo) (id1 id2 : string) (i j : Interval) :
  Value (count_event ds gd gr id1 i) = Value (count_event ds gd gr id2 j)
  ↔ size (wsClients (at_service i)) = size (wsClients (at_service j)).
Proof.
  unfold count_event. cbn [Value]. split; [|by intros ->].
  apply (inj pretty).
Qed.

(** X18: no event that the reporter sends upstream passes the filter of
    [ForwardEvent]: should it come back from the hub, it is dropped without
    any effect, so the count is never forwarded to the websocket clients. *)
Theorem X18_count_events_not_forwarded (ds : string) (gd : string → BasicDeviceInfo)
    (gr : string → BasicRoomInfo) (id : string) (built : option nat * option string)
    (ticks : list Interval) (ev : Event) :
  ev ∈ sent_events (reportWebSocketCount ds gd gr id built ticks).1 →
  ∀ wfail order s, ForwardEvent ev wfail order s = (s, []).
Proof.
  destruct built as [messenger err]. unfold reportWebSocketCount. cbn [fst].
  assert (sent_events
            (match err with
             | Some _ => [Log LError "unable to build websocket count messenger: %s"]
             | None => []
             end ++ report_loop ds gd gr id messenger ticks)
          = sent_events (report_loop ds gd gr id messenger ticks)) as ->
    by by destruct err.
  rewrite report_loop_sent.
  destruct messenger; [|by intros ?%elem_of_nil].
  intros (i & -> & _)%list_elem_of_fmap. intros wfail order s.
  by apply ForwardEvent_dropped.
Qed.

Lemma X18_count_events_not_forwarded_witness :
  let i := {| at_time := 0; at_service := service_of [1; 2]; send_fails := false |} in
  let ev := count_event "detail-state" (λ _, no_device) (λ _, no_room) "ITB-1101-CP1" i in
  ForwardEvent ev (λ _, true) [1; 2] (service_of [1; 2]) = (service_of [1; 2], []).
Proof.
  intros i ev.
  apply (X18_count_events_not_forwarded "detail-state" (λ _, no_device) (λ _, no_room)
           "ITB-1101-CP1" (Some 1, None) [i] ev).
  vm_compute. by left.
Defined.

Lemma report_loop_observed (ds : string) (gd : string → BasicDeviceInfo)
    (gr : string → BasicRoomInfo) (id : string) (messenger : option nat)
    (ticks : list Interval) :
  let t := report_loop ds gd gr id messenger ticks in
  lock_ops t = [] ∧ writes t = [] ∧ closed_conns t = []
  ∧ deleted_conns t = [] ∧ spawned t = [].
Proof.
  induction ticks as [|i rest IH]; [done|].
  cbn zeta in *. destruct IH as (IH1 & IH2 & IH3 & IH4 & IH5).
  change (report_loop ds gd gr id messenger (i :: rest))
    with (report_once ds gd gr id messenger i ++ report_loop ds gd gr id messenger rest).
  rewrite lock_ops_app, writes_app, closed_conns_app, deleted_conns_app.
  rewrite IH1, IH2, IH3, IH4.
  assert (spawned (report_once ds gd gr id messenger i
                   ++ report_loop ds gd gr id messenger rest) = []) as ->.
  { destruct messenger; simpl; exact IH5. }
  by destruct messenger.
Qed.

(** X19: the reporter only looks: it never takes the mutex, never writes to
    or closes a connection, never deletes from the registry and starts no
    goroutine.  Its reads of the registry's size are made without the mutex,
    so as soon as it has run one iteration its trace breaks the lock
    discipline. *)
Theorem X19_reporter_only_reads (ds : string) (gd : string → BasicDeviceInfo)
    (gr : string → BasicRoomInfo) (id : string) (built : option nat * option string)
    (ticks : list Interval) :
  let t := (reportWebSocketCount ds gd gr id built ticks).1 in
  lock_ops t = []
  ∧ writes t = []
  ∧ closed_conns t = []
  ∧ deleted_conns t = []
  ∧ spawned t = []
  ∧ (ticks ≠ [] → guarded false t = false).
Proof.
  destruct built as [messenger err]. unfold reportWebSocketCount. cbn [fst].
  destruct (report_loop_observed ds gd gr id messenger ticks) as (H1 & H2 & H3 & H4 & H5).
  cbn zeta in *.
  rewrite lock_ops_app, writes_app, closed_conns_app, deleted_conns_app, H1, H2, H3, H4.
  do 4 (split; [by destruct err|]).
  split; [destruct err; simpl; exact H5|].
  intros Hne. destruct ticks as [|i rest]; [done|].
  by destruct err.
Qed.

Lemma X19_reporter_only_reads_witness :
  let i := {| at_time := 0; at_service := service_of [1]; send_fails := true |} in
  guarded false
    (reportWebSocketCount "detail-state" (λ _, no_device) (λ _, no_room) "ITB-1101-CP1"
       (None, Some "no hub"%string) [i]).1 = false.
Proof.
  intros i.
  apply (X19_reporter_only_reads "detail-state" (λ _, no_device) (λ _, no_room)
           "ITB-1101-CP1" (None, Some "no hub"%string) [i]).
  done.
Defined.

(** ** From admissions to the reported count *)

Lemma run_admissions_size (conns : list Conn) (errs : Conn → option string)
    (s : Service) :
  NoDup conns →
  (∀ c, c ∈ conns → wsClients s !! c = None) →
  size (wsClients (run ((λ c, CallHandleWebsocket (c, errs c)) <$> conns) s).1)
  = size (wsClients s) + length conns.
Proof.
  revert s. induction conns as [|c rest IH]; intros s Hnd Hfresh.
  { simpl. lia. }
  apply NoDup_cons in Hnd as [Hc Hnd].
  rewrite fmap_cons. cbn [run call HandleWebsocket fst].
  specialize (IH {| wsClients := <[c:=true]> (wsClients s); clientMux := false |}).
  destruct (run _ _) as [s2 t2]. cbn [fst wsClients] in *.
  rewrite IH; [|done|].
  - rewrite map_size_insert_None by (apply Hfresh; left). simpl. lia.
  - intros c' Hc'. rewrite lookup_insert_ne by (intros ->; done).
    apply Hfresh. by right.
Qed.

(** X20: after a new service has admitted a number of distinct connections,
    the registry holds that many, and the count event the reporter builds
    from it carries that number in decimal. *)
Theorem X20_count_after_admissions (conns : list Conn) (errs : Conn → option string)
    (ds : string) (gd : string → BasicDeviceInfo) (gr : string → BasicRoomInfo)
    (id : string) (now : Z) (fails : bool) :
  NoDup conns →
  let s := (run ((λ c, CallHandleWebsocket (c, errs c)) <$> conns) New.1).1 in
  size (wsClients s) = length conns
  ∧ Value (count_event ds gd gr id
             {| at_time := now; at_service := s; send_fails := fails |})
    = pretty (length conns).
Proof.
  intros Hnd. cbn zeta.
  assert (size (wsClients
                  (run ((λ c, CallHandleWebsocket (c, errs c)) <$> conns) New.1).1)
          = length conns) as Hsize.
  { rewrite run_admissions_size; [done|done|]. intros c _. apply lookup_empty. }
  split; [done|]. unfold count_event. cbn [Value at_service]. by rewrite Hsize.
Qed.

Lemma X20_count_after_admissions_witness :
  size (wsClients
          (run ((λ c, CallHandleWebsocket (c, None)) <$> [4; 5; 6]) New.1).1) = 3.
Proof.
  apply (X20_count_after_admissions [4; 5; 6] (λ _, None) "detail-state"
           (λ _, no_device) (λ _, no_room) "ITB-1101-CP1" 0%Z false).
  apply (bool_decide_unpack _). by vm_compute.
Defined.
